(** * react-auth-gate: the rule engine and the dev-tools store

    A shallow embedding of [core/ruleEngine.ts] (evaluateRule,
    resolveStringRule, evaluatePermission) and of [devtools/DevStore.ts]
    (the observable override / evaluation store), followed by the
    properties of the specification that concern them.

    Modelling conventions.
    - An object used as a map ([Record<string, T>]) is read through its
      prototype chain: its own entries are a [gmap string T], and a name
      that is not among them reads what the object inherits. The rules
      map carries what it inherits; for an object literal, and for the
      flag objects of the store, that is [Object.prototype].
    - The module code is strict: the call [rule(context)] passes no
      [this]. The wording of the TypeErrors the engine throws is not
      fixed by the language: it is read from a [Host].
    - JavaScript values that a rule can return or throw are the values
      of [JsValue]: those that [String] converts to a string. A number
      and a non-Error object are kept as what the engine reads of them:
      truthiness, the [message] field, the string they convert to. An
      object whose conversion to a string itself throws (one without a
      usable [toString]) is outside the model, and so is the behaviour
      of the engine on a rule that throws one.
    - An [async] function returns a [Promise]: either [Fulfilled] with a
      value or [Rejected] with a reason; [await] is the monadic bind.
    - [performance.now()] is not computed: the difference the evaluator
      measures is an input (one reading per started rule).
    - The arrays and flag objects the store keeps are heap objects named
      by locations, because the store updates them in place and hands the
      same references to its listeners. *)

From Stdlib Require Import ZArith List.
From stdpp Require Import base option list strings gmap pretty.

Local Open Scope string_scope.
Local Open Scope Z_scope.

(* ===================================================================== *)
(** * core/types.ts and core/ruleEngine.ts *)
(* ===================================================================== *)

Module RuleEngine.

(** Values a rule may return, resolve to, throw or reject with, as far
    as [String] converts them to a string. A number is known by whether
    it is falsy (0, -0, NaN) and by the string it converts to; an object
    that is not an Error by its [message] field, if it has one, and by
    the string it converts to ("[object Object]" unless it has a
    [toString] of its own). *)
Inductive JsValue : Type :=
| VUndefined
| VNull
| VBool (b : bool)
| VNumber (falsy : bool) (printed : string)
| VStr (s : string)
| VObject (message : option string) (printed : string)  (* not an Error *)
| VError (message : string).                            (* instance of Error *)

(** [Boolean(x)] *)
Definition Boolean (x : JsValue) : bool :=
  match x with
  | VUndefined | VNull => false
  | VBool b => b
  | VNumber falsy _ => negb falsy
  | VStr s => negb (String.eqb s "")
  | VObject _ _ | VError _ => true
  end.

(** [String(x)]; an instance of the class [Error] itself prints as its
    name and message (the engine never converts an Error instance). *)
Definition String_ (x : JsValue) : string :=
  match x with
  | VUndefined => "undefined"
  | VNull => "null"
  | VBool true => "true"
  | VBool false => "false"
  | VNumber _ printed => printed
  | VStr s => s
  | VObject _ printed => printed
  | VError m => if String.eqb m "" then "Error" else "Error: " +:+ m
  end.

(** [x instanceof Error] *)
Definition instanceofError (x : JsValue) : bool :=
  match x with VError _ => true | _ => false end.

(** [error.message] of an Error instance, always a string. *)
Definition errorMessage (x : JsValue) : string :=
  match x with VError m => m | _ => "" end.


(** [interface PermissionContext] *)
Record PermissionContext : Type := {
  user : JsValue;
  resource : option JsValue;
  roles : list string;
  permissions : list string;
  flags : gmap string bool;
}.

(** What calling a rule on a context comes to: a plain value, a
    synchronous throw, or a promise that fulfils or rejects. *)
Inductive Completion : Type :=
| Returned (v : JsValue)
| Threw (e : JsValue)
| PromiseFulfilled (v : JsValue)
| PromiseRejected (e : JsValue).

(** [type PermissionRule = (ctx) => boolean | Promise<boolean>] *)
Definition PermissionRule : Type := PermissionContext → Completion.

(** What a property of the rules map can hold when it is truthy: a
    function, or something that is not callable; calling the latter
    throws a TypeError, whose message is kept with it. *)
Inductive RuleValue : Type :=
| Callable (f : PermissionRule)
| NotCallable (callError : string).

(** [type PermissionRulesMap = Record<string, PermissionRule>]: the
    entries of the object itself, which are rules, and the truthy values
    it inherits from its prototype chain, by name. *)
Record PermissionRulesMap : Type := {
  ownRules : gmap string PermissionRule;
  inheritedValue : string → option RuleValue;
}.

(** [rulesMap[key]] when it is truthy: an own entry first, an inherited
    value otherwise. *)
Definition getRule (rulesMap : PermissionRulesMap) (key : string)
  : option RuleValue :=
  match ownRules rulesMap !! key with
  | Some f => Some (Callable f)
  | None => inheritedValue rulesMap key
  end.

(** The wording of the engine's TypeErrors: the one a builtin of
    [Object.prototype] throws when it is called without a [this] value,
    by name of the builtin, and the one thrown for calling what is not a
    function. *)
Record Host : Type := {
  typeErrorOf : string → string;
  notCallableError : string;
}.

(** The names [Object.prototype] defines. *)
Definition objectPrototypeNames : list string :=
  [ "constructor"; "__defineGetter__"; "__defineSetter__"; "hasOwnProperty";
    "__lookupGetter__"; "__lookupSetter__"; "isPrototypeOf";
    "propertyIsEnumerable"; "toString"; "valueOf"; "__proto__";
    "toLocaleString" ].

(** What reading a name of [Object.prototype] gives, as something to call
    with a context and no [this]: [constructor] is [Object], which returns
    the context it is given; [toString] returns "[object Undefined]";
    [__proto__] is the prototype object itself, not a function; every
    other builtin throws a TypeError, as it needs a [this] value. *)
Definition objectPrototype (host : Host) (name : string) : option RuleValue :=
  if bool_decide (name = "constructor") then
    Some (Callable (λ _, Returned (VObject None "[object Object]")))
  else if bool_decide (name = "toString") then
    Some (Callable (λ _, Returned (VStr "[object Undefined]")))
  else if bool_decide (name = "__proto__") then
    Some (NotCallable (notCallableError host))
  else if bool_decide (name ∈ objectPrototypeNames) then
    Some (Callable (λ _, Threw (VError (typeErrorOf host name))))
  else None.

(** A rules map written as an object literal [{ key: rule, ... }]. *)
Definition objectLiteral (host : Host) (own : gmap string PermissionRule)
  : PermissionRulesMap :=
  {| ownRules := own; inheritedValue := objectPrototype host |}.

(** The shapes of a value that is neither a function, a string nor an
    array. *)
Inductive OtherShape : Type :=
| OUndefined
| ONull
| OBoolean (b : bool)
| ONumber (n : Z)
| OPlainObject.

(** [type PermissionCheck = string | string[] | PermissionRule], and what
    else can arrive at run time. *)
Inductive PermissionCheck : Type :=
| CheckFunction (rule : PermissionRule)   (* typeof check === 'function' *)
| CheckString (key : string)              (* typeof check === 'string' *)
| CheckArray (keys : list string)         (* Array.isArray(check) *)
| CheckOther (shape : OtherShape).

(** [mode: 'any' | 'all'] *)
Inductive Mode : Type := ModeAny | ModeAll.

(** [interface RuleEvaluationResult] *)
Record RuleEvaluationResult : Type := {
  rule : string;
  result : bool;
  duration : Z;
  error : option string;
}.

(** What [evaluateRule] resolves to. *)
Record RuleOutcome : Type := {
  ro_result : bool;
  ro_duration : Z;
  ro_error : option string;
}.

(** What [evaluatePermission] resolves to. *)
Record PermissionResult : Type := {
  allowed : bool;
  ruleResults : list RuleEvaluationResult;
}.

(** ** Promises *)

Inductive Promise (A : Type) : Type :=
| Fulfilled (a : A)
| Rejected (reason : JsValue).
Arguments Fulfilled {A} a.
Arguments Rejected {A} reason.

#[global] Instance Promise_ret : MRet Promise := λ A a, Fulfilled a.
#[global] Instance Promise_bind : MBind Promise := λ A B f p,
  match p with
  | Fulfilled a => f a
  | Rejected e => Rejected e
  end.

(** [try { body } catch (error) { handler }] inside an async function. *)
Definition try_catch {A} (body : Promise A) (handler : JsValue → Promise A)
  : Promise A :=
  match body with
  | Fulfilled a => Fulfilled a
  | Rejected e => handler e
  end.

(** [Promise.resolve(rule(context))]: a throw of the call and a rejection
    of the promise both surface at the [await]. *)
Definition Promise_resolve (c : Completion) : Promise JsValue :=
  match c with
  | Returned v | PromiseFulfilled v => Fulfilled v
  | Threw e | PromiseRejected e => Rejected e
  end.

(** [Promise.all]: the results are gathered by position; the whole
    rejects when one of the promises does. *)
Fixpoint Promise_all {A} (ps : list (Promise A)) : Promise (list A) :=
  match ps with
  | [] => mret []
  | p :: ps' => a ← p; rest ← Promise_all ps'; mret (a :: rest)
  end.

(** ** evaluateRule *)

(** [rule(context)] *)
Definition callRule (rule : RuleValue) (context : PermissionContext)
  : Completion :=
  match rule with
  | Callable f => f context
  | NotCallable callError => Threw (VError callError)
  end.

(** [elapsed] is the reading [performance.now() - startTime]. *)
Definition evaluateRule (elapsed : Z) (rule : RuleValue)
    (context : PermissionContext) : Promise RuleOutcome :=
  try_catch
    (result ← Promise_resolve (callRule rule context);
     mret {| ro_result := Boolean result;
             ro_duration := elapsed;
             ro_error := None |})
    (λ error,
     mret {| ro_result := false;
             ro_duration := elapsed;
             ro_error := Some (if instanceofError error
                               then errorMessage error
                               else String_ error) |}).

(** ** resolveStringRule *)

(** [xs.includes(key)] on an array of strings. *)
Definition includes (key : string) (xs : list string) : bool :=
  existsb (String.eqb key) xs.

Definition resolveStringRule (permissionKey : string)
    (rulesMap : PermissionRulesMap) (context : PermissionContext)
  : RuleValue :=
  match getRule rulesMap permissionKey with
  | Some r => r
  | None =>
      Callable
        (λ ctx, Returned (VBool (includes permissionKey (permissions ctx)
                                 || includes permissionKey (roles ctx))))
  end.

(** ** evaluatePermission *)

(** [xs.every(e => e.result)] and [xs.some(e => e.result)] *)
Definition every (xs : list RuleEvaluationResult) : bool := forallb result xs.
Definition some (xs : list RuleEvaluationResult) : bool := existsb result xs.

(** The callback of [check.map]; [i] is the position of the key. *)
Definition evaluateKey (clock : nat → Z) (context : PermissionContext)
    (rulesMap : PermissionRulesMap) (i : nat) (key : string)
  : Promise RuleEvaluationResult :=
  let rule := resolveStringRule key rulesMap context in
  evaluation ← evaluateRule (clock i) rule context;
  mret {| rule := key;
          result := ro_result evaluation;
          duration := ro_duration evaluation;
          error := ro_error evaluation |}.

(** [clock i] is the elapsed time read for the [i]-th rule the call
    starts; with a key set all rules are started before any is awaited, so
    the readings also fix the order in which they complete. *)
Definition evaluatePermission (clock : nat → Z) (check : PermissionCheck)
    (context : PermissionContext) (rulesMap : PermissionRulesMap)
    (mode : Mode) : Promise PermissionResult :=
  match check with
  | CheckFunction f =>
      evaluation ← evaluateRule (clock 0%nat) (Callable f) context;
      mret {| allowed := ro_result evaluation;
              ruleResults := [ {| rule := "inline";
                                  result := ro_result evaluation;
                                  duration := ro_duration evaluation;
                                  error := ro_error evaluation |} ] |}
  | CheckString key =>
      let rule := resolveStringRule key rulesMap context in
      evaluation ← evaluateRule (clock 0%nat) rule context;
      mret {| allowed := ro_result evaluation;
              ruleResults := [ {| rule := key;
                                  result := ro_result evaluation;
                                  duration := ro_duration evaluation;
                                  error := ro_error evaluation |} ] |}
  | CheckArray keys =>
      evaluations ← Promise_all (imap (evaluateKey clock context rulesMap) keys);
      let allowed :=
        match mode with
        | ModeAll => every evaluations
        | ModeAny => some evaluations
        end in
      mret {| allowed := allowed; ruleResults := evaluations |}
  | CheckOther _ =>
      mret {| allowed := false;
              ruleResults := [ {| rule := "unknown";
                                  result := false;
                                  duration := 0;
                                  error := Some "Invalid permission check type" |} ] |}
  end.

(** [createPermissionContext] *)
Definition createPermissionContext (user : JsValue) (resource : option JsValue)
    (roles permissions : list string) (flags : gmap string bool)
  : PermissionContext :=
  {| user := user; resource := resource; roles := roles;
     permissions := permissions; flags := flags |}.

End RuleEngine.

(* ===================================================================== *)
(** * devtools/DevStore.ts *)
(* ===================================================================== *)

Module DevStore.
Import RuleEngine.

(** [check: string | string[]] of a recorded evaluation; an inline rule is
    recorded as the string ["inline"]. *)
Inductive RecordedCheck : Type :=
| RecordedKey (key : string)
| RecordedKeys (keys : list string).

(** [interface PermissionEvaluation] *)
Record PermissionEvaluation : Type := {
  id : string;
  timestamp : Z;
  check : RecordedCheck;
  ev_resource : option JsValue;
  ev_allowed : bool;
  ev_ruleResults : list RuleEvaluationResult;
  component : option string;
  mode : option Mode;
}.

(** References to the mutable objects of the store: arrays of strings
    (roles, permissions) and flag records. A flag record is a plain,
    extensible object, as [{ ...currentFlags }] makes them; [entries]
    are its own properties. *)
Definition loc : Type := nat.

Inductive HeapObject : Type :=
| HArray (items : list string)
| HFlags (entries : gmap string bool).

Abbreviation Heap := (gmap loc HeapObject).

(** [interface DevToolsState]; the override fields hold references. The
    [evaluations] array is only ever replaced by a new array, never
    updated in place, so it is kept by value. *)
Record DevToolsState : Type := {
  evaluations : list PermissionEvaluation;
  isOpen : bool;
  overrideUser : option JsValue;
  overrideRoles : option loc;
  overridePermissions : option loc;
  overrideFlags : option loc;
}.

(** A listener is known by its identity; calling it is recorded in
    [delivered], oldest call first, with the object it was given. *)
Definition Listener : Type := nat.

(** The heap, the fields of the [DevStore] instance, and the calls made
    to listeners so far. *)
Record World : Type := {
  heap : Heap;
  state : DevToolsState;
  listeners : list Listener;        (* a Set, in insertion order *)
  delivered : list (Listener * DevToolsState);
}.

(** The state of a [new DevStore()] in a given heap. *)
Definition initialState : DevToolsState :=
  {| evaluations := []; isOpen := false; overrideUser := None;
     overrideRoles := None; overridePermissions := None;
     overrideFlags := None |}.

Definition newDevStore (h : Heap) : World :=
  {| heap := h; state := initialState; listeners := []; delivered := [] |}.

(** ** A state monad over the world *)

Definition Store (A : Type) : Type := World → A * World.

#[global] Instance Store_ret : MRet Store := λ A a w, (a, w).
#[global] Instance Store_bind : MBind Store := λ A B f m w,
  let '(a, w') := m w in f a w'.

Definition exec {A} (m : Store A) (w : World) : World := snd (m w).

Definition getWorld : Store World := λ w, (w, w).
Definition putHeap (h : Heap) : Store unit := λ w,
  (tt, {| heap := h; state := state w; listeners := listeners w;
          delivered := delivered w |}).
Definition putState (s : DevToolsState) : Store unit := λ w,
  (tt, {| heap := heap w; state := s; listeners := listeners w;
          delivered := delivered w |}).
Definition putListeners (ls : list Listener) : Store unit := λ w,
  (tt, {| heap := heap w; state := state w; listeners := ls;
          delivered := delivered w |}).
Definition call (l : Listener) (arg : DevToolsState) : Store unit := λ w,
  (tt, {| heap := heap w; state := state w; listeners := listeners w;
          delivered := delivered w ++ [(l, arg)] |}).

(** ** Heap access *)

Definition readArray (h : Heap) (l : loc) : list string :=
  match h !! l with Some (HArray xs) => xs | _ => [] end.

Definition readFlags (h : Heap) (l : loc) : gmap string bool :=
  match h !! l with Some (HFlags m) => m | _ => ∅ end.

(** A new object, at a location not in use. *)
Definition alloc (o : HeapObject) : Store loc := λ w,
  let l := fresh (dom (heap w)) in
  (l, {| heap := <[l := o]> (heap w); state := state w;
         listeners := listeners w; delivered := delivered w |}).

Definition store (l : loc) (o : HeapObject) : Store unit :=
  w ← getWorld; putHeap (<[l := o]> (heap w)).

(** ** Array helpers *)

(** [xs.indexOf(x)]: the first index holding [x], or -1. *)
Fixpoint indexOf (x : string) (xs : list string) : Z :=
  match xs with
  | [] => -1
  | y :: ys =>
      if String.eqb y x then 0
      else let i := indexOf x ys in if i =? -1 then -1 else i + 1
  end.

(** What [xs.splice(index, 1)] leaves in [xs], for [index >= 0]. *)
Definition splice1 (index : Z) (xs : list string) : list string :=
  delete (Z.to_nat index) xs.

(** What [xs.push(x)] leaves in [xs]. *)
Definition push (x : string) (xs : list string) : list string := xs ++ [x].

(** The truthiness of [flags[flag]], for a plain object [flags]: an own
    entry reads as its value; without one, a name of [Object.prototype]
    reads what is inherited, which is truthy, and any other name reads
    [undefined]. *)
Definition readFlag (flags : gmap string bool) (flag : string) : bool :=
  match flags !! flag with
  | Some b => b
  | None => bool_decide (flag ∈ objectPrototypeNames)
  end.

(** [!flags[flag]] *)
Definition notFlag (flags : gmap string bool) (flag : string) : bool :=
  negb (readFlag flags flag).

(** What [flags[flag] = value] leaves in a plain object [flags]: the
    entry, except that without an own entry of that name the assignment
    to [__proto__] goes to the inherited setter, which ignores a boolean
    and stores nothing. *)
Definition assignFlag (flags : gmap string bool) (flag : string)
    (value : bool) : gmap string bool :=
  if bool_decide (flag = "__proto__" ∧ flags !! flag = None) then flags
  else <[flag := value]> flags.

(** ** The methods of [DevStore] *)

(** [getState]: a new object with the same fields, [{ ...this.state }]. *)
Definition getState : Store DevToolsState :=
  w ← getWorld; mret (state w).

(** [subscribe]: [this.listeners.add(listener)]. The function it returns
    is [unsubscribe listener]. *)
Definition subscribe (listener : Listener) : Store unit :=
  w ← getWorld;
  if bool_decide (listener ∈ listeners w) then mret tt
  else putListeners (listeners w ++ [listener]).

Definition unsubscribe (listener : Listener) : Store unit :=
  w ← getWorld;
  putListeners (filter (λ l, l ≠ listener) (listeners w)).

(** [this.listeners.forEach((listener) => listener(currentState))] *)
Fixpoint forEach (ls : list Listener) (arg : DevToolsState) : Store unit :=
  match ls with
  | [] => mret tt
  | l :: ls' => call l arg;; forEach ls' arg
  end.

Definition notify : Store unit :=
  currentState ← getState;
  w ← getWorld;
  forEach (listeners w) currentState.

Definition addEvaluation (evaluation : PermissionEvaluation) : Store unit :=
  w ← getWorld;
  let s := state w in
  putState {| evaluations := take 100 (evaluation :: evaluations s);
              isOpen := isOpen s; overrideUser := overrideUser s;
              overrideRoles := overrideRoles s;
              overridePermissions := overridePermissions s;
              overrideFlags := overrideFlags s |};;
  notify.

Definition clearEvaluations : Store unit :=
  w ← getWorld;
  let s := state w in
  putState {| evaluations := [];
              isOpen := isOpen s; overrideUser := overrideUser s;
              overrideRoles := overrideRoles s;
              overridePermissions := overridePermissions s;
              overrideFlags := overrideFlags s |};;
  notify.

Definition setOpen (open : bool) : Store unit :=
  w ← getWorld;
  let s := state w in
  putState {| evaluations := evaluations s;
              isOpen := open; overrideUser := overrideUser s;
              overrideRoles := overrideRoles s;
              overridePermissions := overridePermissions s;
              overrideFlags := overrideFlags s |};;
  notify.

Definition togglePanel : Store unit :=
  w ← getWorld;
  let s := state w in
  putState {| evaluations := evaluations s;
              isOpen := negb (isOpen s); overrideUser := overrideUser s;
              overrideRoles := overrideRoles s;
              overridePermissions := overridePermissions s;
              overrideFlags := overrideFlags s |};;
  notify.

(** [user] is [None] for [undefined]. *)
Definition setOverrideUser (user : option JsValue) : Store unit :=
  w ← getWorld;
  let s := state w in
  putState {| evaluations := evaluations s;
              isOpen := isOpen s; overrideUser := user;
              overrideRoles := overrideRoles s;
              overridePermissions := overridePermissions s;
              overrideFlags := overrideFlags s |};;
  notify.

Definition setOverrideRoles (roles : option loc) : Store unit :=
  w ← getWorld;
  let s := state w in
  putState {| evaluations := evaluations s;
              isOpen := isOpen s; overrideUser := overrideUser s;
              overrideRoles := roles;
              overridePermissions := overridePermissions s;
              overrideFlags := overrideFlags s |};;
  notify.

Definition setOverridePermissions (permissions : option loc) : Store unit :=
  w ← getWorld;
  let s := state w in
  putState {| evaluations := evaluations s;
              isOpen := isOpen s; overrideUser := overrideUser s;
              overrideRoles := overrideRoles s;
              overridePermissions := permissions;
              overrideFlags := overrideFlags s |};;
  notify.

Definition setOverrideFlags (flags : option loc) : Store unit :=
  w ← getWorld;
  let s := state w in
  putState {| evaluations := evaluations s;
              isOpen := isOpen s; overrideUser := overrideUser s;
              overrideRoles := overrideRoles s;
              overridePermissions := overridePermissions s;
              overrideFlags := flags |};;
  notify.

(** The part [toggleRole] and [togglePermission] share: [arr] is the
    array to work on; the key is removed at its first index or pushed,
    in place. The result is the length the array then has. *)
Definition toggleIn (arr : loc) (key : string) : Store nat :=
  w ← getWorld;
  let items := readArray (heap w) arr in
  let index := indexOf key items in
  (if index >? -1
   then store arr (HArray (splice1 index items))
   else store arr (HArray (push key items)));;
  w' ← getWorld;
  mret (length (readArray (heap w') arr)).

(** [currentRoles] is only read, to be copied. *)
Definition toggleRole (role : string) (currentRoles : list string)
  : Store unit :=
  w ← getWorld;
  overrideRoles ←
    match overrideRoles (state w) with
    | Some arr => mret arr                      (* this.state.overrideRoles *)
    | None => alloc (HArray currentRoles)       (* [...currentRoles] *)
    end;
  len ← toggleIn overrideRoles role;
  setOverrideRoles (if (0 <? Z.of_nat len) then Some overrideRoles else None).

Definition togglePermission (permission : string)
    (currentPermissions : list string) : Store unit :=
  w ← getWorld;
  overridePermissions ←
    match overridePermissions (state w) with
    | Some arr => mret arr
    | None => alloc (HArray currentPermissions)
    end;
  len ← toggleIn overridePermissions permission;
  setOverridePermissions
    (if (0 <? Z.of_nat len) then Some overridePermissions else None).

(** [currentFlags] is only read, to be copied. *)
Definition toggleFlag (flag : string) (currentFlags : gmap string bool)
  : Store unit :=
  w ← getWorld;
  overrideFlags ←
    match overrideFlags (state w) with
    | Some obj => mret obj                      (* this.state.overrideFlags *)
    | None => alloc (HFlags currentFlags)       (* { ...currentFlags } *)
    end;
  w' ← getWorld;
  let entries := readFlags (heap w') overrideFlags in
  store overrideFlags (HFlags (assignFlag entries flag (notFlag entries flag)));;
  setOverrideFlags (Some overrideFlags).

Definition resetOverrides : Store unit :=
  w ← getWorld;
  let s := state w in
  putState {| evaluations := evaluations s;
              isOpen := isOpen s; overrideUser := None;
              overrideRoles := None;
              overridePermissions := None;
              overrideFlags := None |};;
  notify.

(** ** What an observer reads *)

(** The content of a state object as read in heap [h]: the override
    fields followed through their references. *)
Record StateView : Type := {
  v_evaluations : list PermissionEvaluation;
  v_isOpen : bool;
  v_overrideUser : option JsValue;
  v_overrideRoles : option (list string);
  v_overridePermissions : option (list string);
  v_overrideFlags : option (gmap string bool);
}.

Definition view (h : Heap) (s : DevToolsState) : StateView :=
  {| v_evaluations := evaluations s;
     v_isOpen := isOpen s;
     v_overrideUser := overrideUser s;
     v_overrideRoles := readArray h <$> overrideRoles s;
     v_overridePermissions := readArray h <$> overridePermissions s;
     v_overrideFlags := readFlags h <$> overrideFlags s |}.

(** The calls of the methods, as data, to speak of all of them at once. *)
Inductive Op : Type :=
| OpAddEvaluation (e : PermissionEvaluation)
| OpClearEvaluations
| OpTogglePanel
| OpSetOpen (open : bool)
| OpSetOverrideUser (user : option JsValue)
| OpSetOverrideRoles (roles : option loc)
| OpSetOverridePermissions (permissions : option loc)
| OpSetOverrideFlags (flags : option loc)
| OpToggleRole (role : string) (currentRoles : list string)
| OpTogglePermission (permission : string) (currentPermissions : list string)
| OpToggleFlag (flag : string) (currentFlags : gmap string bool)
| OpResetOverrides.

Definition run (o : Op) : Store unit :=
  match o with
  | OpAddEvaluation e => addEvaluation e
  | OpClearEvaluations => clearEvaluations
  | OpTogglePanel => togglePanel
  | OpSetOpen b => setOpen b
  | OpSetOverrideUser u => setOverrideUser u
  | OpSetOverrideRoles r => setOverrideRoles r
  | OpSetOverridePermissions p => setOverridePermissions p
  | OpSetOverrideFlags f => setOverrideFlags f
  | OpToggleRole r base => toggleRole r base
  | OpTogglePermission p base => togglePermission p base
  | OpToggleFlag f base => toggleFlag f base
  | OpResetOverrides => resetOverrides
  end.

(** Calls made one after the other. *)
Definition runAll (ops : list Op) (w : World) : World :=
  foldl (λ w o, exec (run o) w) w ops.

End DevStore.

(* ===================================================================== *)
(** * Definitions used to state the properties *)
(* ===================================================================== *)

Module Statements.
Import RuleEngine DevStore.

(** The entry of a trace without its timing. *)
Definition untimed (e : RuleEvaluationResult) : string * bool * option string :=
  (rule e, result e, error e).

(** The rules map [{admin: () => true, edit: () => false}]. *)
Definition adminEditRules (host : Host) : PermissionRulesMap :=
  objectLiteral host
    (<["admin" := λ _, Returned (VBool true)]>
       (<["edit" := λ _, Returned (VBool false)]> ∅)).

(** The rules map [{}]. *)
Definition noRules (host : Host) : PermissionRulesMap := objectLiteral host ∅.

(** A rule that throws an Error, and one that grants. *)
Definition throwsError : PermissionRule := λ _, Threw (VError "boom").
Definition grants : PermissionRule := λ _, Returned (VBool true).

(** A host, for the examples. *)
Definition sampleHost : Host :=
  {| typeErrorOf := λ _, "Cannot convert undefined or null to object";
     notCallableError := "rule is not a function" |}.

(** The context of the example: roles ["admin"], no permissions. *)
Definition adminContext : PermissionContext :=
  createPermissionContext VNull None ["admin"] [] ∅.


(** The world after a state update [s] and the notification that every
    mutating method ends with. *)
Definition notified (h : Heap) (s : DevToolsState) (w : World) : World :=
  {| heap := h; state := s; listeners := listeners w;
     delivered := delivered w ++ ((λ l, (l, s)) <$> listeners w) |}.

(** What toggling leaves in the working array. *)
Definition toggled (key : string) (items : list string) : list string :=
  if indexOf key items >? -1
  then splice1 (indexOf key items) items
  else push key items.

(** Removal of the first occurrence. *)
Fixpoint removeFirst (key : string) (items : list string) : list string :=
  match items with
  | [] => []
  | x :: xs => if String.eqb x key then xs else x :: removeFirst key xs
  end.

(** The array a toggle works on and the heap that holds it: the override
    when there is one, a new array with the items of [base] otherwise. *)
Definition workingArray (h : Heap) (override : option loc)
    (base : list string) : loc * Heap :=
  match override with
  | Some l => (l, h)
  | None => let l := fresh (dom h) in (l, <[l := HArray base]> h)
  end.

(** The same for the flag record. *)
Definition workingFlags (h : Heap) (override : option loc)
    (base : gmap string bool) : loc * Heap :=
  match override with
  | Some l => (l, h)
  | None => let l := fresh (dom h) in (l, <[l := HFlags base]> h)
  end.

(** The items a toggle starts from: those of the override when there is
    one, those of [base] otherwise. *)
Definition workingItems (h : Heap) (override : option loc)
    (base : list string) : list string :=
  match override with
  | Some l => readArray h l
  | None => base
  end.

(** The items a toggle ends with: without the first occurrence of the
    key when it occurs, with the key appended when it does not. *)
Definition flipFirst (key : string) (items : list string) : list string :=
  if bool_decide (key ∈ items) then removeFirst key items else items ++ [key].

(** What a toggle of [key] does to the override held in [field], from
    world [w] to world [w']: the override read afterwards is the result,
    or absent when the result is empty; an override that was present is
    updated in place and stays where it was unless it ends up empty; when
    there was none the base is copied, no object of the heap changes;
    the membership of the key is flipped when the working items have no
    duplicate, and the membership of every other key is kept. *)
Definition ToggleOutcome (field : DevToolsState → option loc)
    (key : string) (base : list string) (w w' : World) : Prop :=
  let working := workingItems (heap w) (field (state w)) base in
  let result := flipFirst key working in
  (readArray (heap w') <$> field (state w'))
  = (if bool_decide (result = []) then None else Some result)
  ∧ (∀ l, field (state w) = Some l →
          heap w' = <[l := HArray result]> (heap w)
          ∧ (result ≠ [] → field (state w') = Some l))
  ∧ (field (state w) = None →
     ∀ l, l ∈ dom (heap w) → heap w' !! l = heap w !! l)
  ∧ (NoDup working → (key ∈ result ↔ key ∉ working))
  ∧ (∀ k, k ≠ key → (k ∈ result ↔ k ∈ working)).

(** The entries a flag toggle starts from. *)
Definition workingEntries (h : Heap) (override : option loc)
    (base : gmap string bool) : gmap string bool :=
  match override with
  | Some l => readFlags h l
  | None => base
  end.

(** A recorded evaluation with the given id. *)
Definition sampleEvaluation (n : nat) : PermissionEvaluation :=
  {| id := "eval-" +:+ pretty n; timestamp := Z.of_nat n;
     check := RecordedKey "admin"; ev_resource := None; ev_allowed := true;
     ev_ruleResults := []; component := None; mode := Some ModeAny |}.

(** The override field after a toggle of an array. *)
Definition keptOverride (l : loc) (items : list string) : option loc :=
  if 0 <? Z.of_nat (length items) then Some l else None.

End Statements.

(* ===================================================================== *)
(** * Further definitions used to state properties *)
(* ===================================================================== *)

Module Decisions.
Import RuleEngine.

(** Whether the rule a key resolves to grants in a context: the result
    [evaluateRule] records for it (the reading of the clock plays no
    part in it). *)
Definition keyGrants (context : PermissionContext)
    (rulesMap : PermissionRulesMap) (key : string) : bool :=
  match evaluateRule 0 (resolveStringRule key rulesMap context) context with
  | Fulfilled out => ro_result out
  | Rejected _ => false
  end.

(** A rule has failed in a context when its call threw or the promise
    it returned rejected. *)
Definition ruleFails (r : RuleValue) (context : PermissionContext) : Prop :=
  match callRule r context with
  | Threw _ | PromiseRejected _ => True
  | Returned _ | PromiseFulfilled _ => False
  end.

(** The value a rule comes to, when its call returns one or the promise
    it returned fulfils with one. *)
Definition ruleValue (r : RuleValue) (context : PermissionContext)
  : option JsValue :=
  match callRule r context with
  | Returned v | PromiseFulfilled v => Some v
  | Threw _ | PromiseRejected _ => None
  end.

(** A rule fails with an Error instance of message [m]. *)
Definition ruleFailsWithError (r : RuleValue) (context : PermissionContext)
    (m : string) : Prop :=
  callRule r context = Threw (VError m)
  ∨ callRule r context = PromiseRejected (VError m).

End Decisions.

(* ===================================================================== *)
(** * react/PermissionsProvider.tsx, devtools/PermissionsRoot.tsx,
      react/PermissionsGate.tsx *)
(* ===================================================================== *)

Module Provider.
Import RuleEngine DevStore.

(** A check as the components receive it, typed [PermissionCheck]:
    a rule, a key or an array of keys. *)
Inductive TypedCheck : Type :=
| ByRule (rule : PermissionRule)
| ByKey (key : string)
| ByKeys (keys : list string).

Definition toCheck (c : TypedCheck) : PermissionCheck :=
  match c with
  | ByRule r => CheckFunction r
  | ByKey k => CheckString k
  | ByKeys ks => CheckArray ks
  end.

(** [typeof check === 'function' ? 'inline' : check] *)
Definition recordedCheck (c : TypedCheck) : RecordedCheck :=
  match c with
  | ByRule _ => RecordedKey "inline"
  | ByKey k => RecordedKey k
  | ByKeys ks => RecordedKeys ks
  end.

(** The props of [PermissionsProvider]; [None] is a prop left out. *)
Record PermissionsProviderProps : Type := {
  p_user : JsValue;
  p_roles : option (list string);
  p_permissions : option (list string);
  p_rules : option PermissionRulesMap;
  p_flags : option (gmap string bool);
  p_enableDevTools : option bool;
  p_onEvaluationRegister : option (PermissionEvaluation → Store unit);
}.

(** What the callback reads from its environment: the host, the clock
    of the rule engine, [Date.now()] for the id, the string
    [Math.random()] prints as, and [Date.now()] for the timestamp. *)
Record Readings : Type := {
  rd_host : Host;
  rd_clock : nat → Z;
  rd_idNow : Z;
  rd_idRandom : string;
  rd_timestamp : Z;
}.

(** [devToolsEnabled]: the prop when given, else whether
    [process.env.NODE_ENV !== 'production']. *)
Definition devToolsEnabled (props : PermissionsProviderProps)
    (production : bool) : bool :=
  match p_enableDevTools props with
  | Some b => b
  | None => negb production
  end.

(** The [evaluatePermission] callback of the provider. *)
Definition evaluatePermission (production : bool) (rd : Readings)
    (props : PermissionsProviderProps) (check : TypedCheck)
    (resource : option JsValue) (mode : option Mode) : Store (Promise bool) :=
  let mode := default ModeAny mode in
  let context :=
    createPermissionContext (p_user props) resource
      (default [] (p_roles props)) (default [] (p_permissions props))
      (default ∅ (p_flags props)) in
  match RuleEngine.evaluatePermission (rd_clock rd) (toCheck check) context
          (default (objectLiteral (rd_host rd) ∅) (p_rules props)) mode with
  | Rejected reason => mret (Rejected reason)
  | Fulfilled result =>
      match devToolsEnabled props production, p_onEvaluationRegister props with
      | true, Some onEvaluationRegister =>
          onEvaluationRegister
            {| id := "eval-" +:+ pretty (rd_idNow rd) +:+ "-" +:+ rd_idRandom rd;
               timestamp := rd_timestamp rd;
               check := recordedCheck check;
               ev_resource := resource;
               ev_allowed := allowed result;
               ev_ruleResults := ruleResults result;
               component := None;
               DevStore.mode := Some mode |}
      | _, _ => mret tt
      end;;
      mret (Fulfilled (allowed result))
  end.

End Provider.

Module Root.
Import RuleEngine DevStore Provider.

(** [devState.overrideRoles ?? props.roles ?? []], read in heap [h]. *)
Definition effectiveRoles (h : Heap) (devState : DevToolsState)
    (props : PermissionsProviderProps) : list string :=
  match overrideRoles devState with
  | Some l => readArray h l
  | None => default [] (p_roles props)
  end.

Definition effectivePermissions (h : Heap) (devState : DevToolsState)
    (props : PermissionsProviderProps) : list string :=
  match overridePermissions devState with
  | Some l => readArray h l
  | None => default [] (p_permissions props)
  end.

Definition effectiveFlags (h : Heap) (devState : DevToolsState)
    (props : PermissionsProviderProps) : gmap string bool :=
  match overrideFlags devState with
  | Some l => readFlags h l
  | None => default ∅ (p_flags props)
  end.

(** The props [PermissionsRoot] hands to [PermissionsProvider]:
    its own props, the effective roles, permissions and flags, and
    [devStore.addEvaluation] as the register callback. *)
Definition providerProps (h : Heap) (devState : DevToolsState)
    (props : PermissionsProviderProps) : PermissionsProviderProps :=
  {| p_user := p_user props;
     p_roles := Some (effectiveRoles h devState props);
     p_permissions := Some (effectivePermissions h devState props);
     p_rules := p_rules props;
     p_flags := Some (effectiveFlags h devState props);
     p_enableDevTools := p_enableDevTools props;
     p_onEvaluationRegister := Some addEvaluation |}.

End Root.

Module Gate.
Import RuleEngine Provider.

(** [type PermissionMode = 'hide' | 'disable'] *)
Inductive PermissionMode : Type := Hide | Disable.

(** A child of the gate: a React element, or any other node (text, a
    number, an empty node). *)
Inductive Child : Type :=
| ChildElement (element : string)
| ChildOther (node : string).

(** A child as it is rendered: as it was given, or as the clone of an
    element with the [disabled] props added. *)
Inductive RenderedChild : Type :=
| AsGiven (child : Child)
| DisabledClone (element : string).

(** What the gate returns: nothing, the fallback, or a fragment of
    children. *)
Inductive Rendered : Type :=
| RenderNull
| RenderFallback
| RenderNodes (nodes : list RenderedChild).

(** [<>{children}</>] *)
Definition renderChildren (children : list Child) : Rendered :=
  RenderNodes (AsGiven <$> children).

(** [disableChildren]: an element is cloned with the [disabled] props,
    any other child is returned unchanged. *)
Definition disableChildren (children : list Child) : list RenderedChild :=
  (λ child, match child with
            | ChildElement e => DisabledClone e
            | ChildOther _ => AsGiven child
            end) <$> children.

(** [interface PermissionsGateProps]; [g_fallback] tells whether a
    fallback is given (and is not a falsy node). *)
Record PermissionsGateProps : Type := {
  g_allow : option TypedCheck;
  g_any : option (list string);
  g_all : option (list string);
  g_resource : option JsValue;
  g_fallback : bool;
  g_mode : option PermissionMode;
  g_children : list Child;
}.

(** What [usePermission] returns. *)
Record PermissionState : Type := {
  s_allowed : bool;
  s_loading : bool;
}.

(** The check and the evaluation mode the gate settles on, if any. *)
Definition selectCheck (props : PermissionsGateProps)
  : option (TypedCheck * Mode) :=
  match g_allow props with
  | Some allow => Some (allow, ModeAny)
  | None =>
      match g_any props with
      | Some any => Some (ByKeys any, ModeAny)
      | None =>
          match g_all props with
          | Some all => Some (ByKeys all, ModeAll)
          | None => None
          end
      end
  end.

(** [PermissionsGate]; the hook [usePermission] is a parameter. *)
Definition PermissionsGate
    (usePermission : TypedCheck → option JsValue → Mode → PermissionState)
    (props : PermissionsGateProps) : Rendered :=
  let mode := default Hide (g_mode props) in
  match selectCheck props with
  | None => if g_fallback props then RenderFallback else RenderNull
  | Some (check, evalMode) =>
      let st := usePermission check (g_resource props) evalMode in
      if s_loading st then
        match mode with
        | Hide => RenderNull
        | Disable => renderChildren (g_children props)
        end
      else if negb (s_allowed st) then
        match mode with
        | Hide => if g_fallback props then RenderFallback else RenderNull
        | Disable => RenderNodes (disableChildren (g_children props))
        end
      else renderChildren (g_children props)
  end.

End Gate.

Module Observations.
Import RuleEngine DevStore.

(** The state objects a listener has been called with, oldest first. *)
Definition callsTo (l : Listener) (w : World) : list DevToolsState :=
  snd <$> filter (λ p, p.1 = l) (delivered w).

End Observations.

(* ===================================================================== *)
(** * Properties of the rule engine *)
(* ===================================================================== *)

Section RuleEngineFacts.
Import RuleEngine Statements.

Implicit Types (clock : nat → Z) (context : PermissionContext)
  (rulesMap : PermissionRulesMap) (keys : list string).


Lemma evaluateRule_settles elapsed (r : RuleValue) context :
  ∃ out, evaluateRule elapsed r context = Fulfilled out
         ∧ ro_duration out = elapsed.
Proof.
  unfold evaluateRule. destruct (callRule r context); simpl; eauto.
Qed.

Lemma evaluateRule_untimed t t' (r : RuleValue) context out out' :
  evaluateRule t r context = Fulfilled out →
  evaluateRule t' r context = Fulfilled out' →
  ro_result out = ro_result out' ∧ ro_error out = ro_error out'.
Proof.
  unfold evaluateRule. destruct (callRule r context); simpl;
    intros [= <-] [= <-]; done.
Qed.

Lemma evaluateKey_settles clock context rulesMap i key :
  ∃ e, evaluateKey clock context rulesMap i key = Fulfilled e ∧ rule e = key.
Proof.
  unfold evaluateKey.
  destruct (evaluateRule_settles (clock i)
              (resolveStringRule key rulesMap context) context) as (out & -> & _).
  simpl. eauto.
Qed.

Lemma evaluateKey_untimed clock clock' context rulesMap i j key e e' :
  evaluateKey clock context rulesMap i key = Fulfilled e →
  evaluateKey clock' context rulesMap j key = Fulfilled e' →
  untimed e = untimed e'.
Proof.
  unfold evaluateKey.
  destruct (evaluateRule_settles (clock i)
              (resolveStringRule key rulesMap context) context) as (out & Ho & _).
  destruct (evaluateRule_settles (clock' j)
              (resolveStringRule key rulesMap context) context) as (out' & Ho' & _).
  rewrite Ho, Ho'. simpl. intros [= <-] [= <-].
  destruct (evaluateRule_untimed _ _ _ _ _ _ Ho Ho') as [Hr He].
  unfold untimed; simpl. by rewrite Hr, He.
Qed.

Lemma Promise_all_fulfilled {A} (xs : list A) :
  Promise_all (Fulfilled <$> xs) = Fulfilled xs.
Proof.
  induction xs as [|x xs IH]; [done|].
  rewrite fmap_cons. cbn [Promise_all mbind Promise_bind]. by rewrite IH.
Qed.

(** Every key's own promise fulfils, and the entries carry the keys. *)
Lemma evaluateKeys_settle keys : ∀ clock context rulesMap,
  ∃ trace, imap (evaluateKey clock context rulesMap) keys = Fulfilled <$> trace
           ∧ rule <$> trace = keys.
Proof.
  induction keys as [|key keys IH]; intros clock context rulesMap.
  - exists []. done.
  - destruct (evaluateKey_settles clock context rulesMap 0 key) as (e & He & Hk).
    destruct (IH (clock ∘ S) context rulesMap) as (trace & Ht & Hks).
    exists (e :: trace). split.
    + rewrite imap_cons, fmap_cons, He. f_equal. exact Ht.
    + rewrite fmap_cons. by rewrite Hk, Hks.
Qed.

Lemma evaluateKeys_untimed keys : ∀ clock clock' context rulesMap trace trace',
  imap (evaluateKey clock context rulesMap) keys = Fulfilled <$> trace →
  imap (evaluateKey clock' context rulesMap) keys = Fulfilled <$> trace' →
  untimed <$> trace = untimed <$> trace'.
Proof.
  induction keys as [|key keys IH]; intros clock clock' context rulesMap
    [|e trace] [|e' trace']; try done.
  rewrite !imap_cons, !fmap_cons.
  intros [= He Ht] [= He' Ht'].
  f_equal.
  - eapply evaluateKey_untimed; eauto.
  - eapply (IH (clock ∘ S) (clock' ∘ S)); eauto.
Qed.

Lemma every_true (xs : list RuleEvaluationResult) :
  every xs = true ↔ Forall (λ e, result e = true) xs.
Proof.
  unfold every. rewrite forallb_forall, Forall_forall.
  split; intros H x Hx; apply H; by apply list_elem_of_In.
Qed.

Lemma some_true (xs : list RuleEvaluationResult) :
  some xs = true ↔ Exists (λ e, result e = true) xs.
Proof.
  unfold some. rewrite existsb_exists, Exists_exists.
  split; intros (x & Hx & Hr); exists x; split; try done; by apply list_elem_of_In.
Qed.

Lemma evaluatePermission_array clock context rulesMap keys mode trace :
  imap (evaluateKey clock context rulesMap) keys = Fulfilled <$> trace →
  evaluatePermission clock (CheckArray keys) context rulesMap mode
  = Fulfilled {| allowed := match mode with
                            | ModeAll => every trace
                            | ModeAny => some trace
                            end;
                 ruleResults := trace |}.
Proof.
  intros H. unfold evaluatePermission. rewrite H, Promise_all_fulfilled.
  reflexivity.
Qed.

(** C1. A key-set check resolves with one trace entry per key, the entry
    of a key standing at the position of the key whatever the timing of
    the rules (the clock readings, hence the completion order, change
    nothing but the durations); under mode "all" the check is allowed
    exactly when every entry's result is true, under mode "any" exactly
    when some entry's result is true. With the rules
    [{admin: () => true, edit: () => false}] and the keys
    ["admin", "edit"], mode "any" allows with a trace of the two entries
    in that order, and mode "all" denies. *)
Theorem evaluatePermission_key_set host clock context rulesMap keys :
  ∃ trace rAll rAny,
    imap (evaluateKey clock context rulesMap) keys = Fulfilled <$> trace
    ∧ evaluatePermission clock (CheckArray keys) context rulesMap ModeAll
      = Fulfilled rAll
    ∧ evaluatePermission clock (CheckArray keys) context rulesMap ModeAny
      = Fulfilled rAny
    ∧ ruleResults rAll = trace ∧ ruleResults rAny = trace
    ∧ length trace = length keys
    ∧ rule <$> trace = keys
    ∧ (∀ clock' mode, ∃ r',
          evaluatePermission clock' (CheckArray keys) context rulesMap mode
          = Fulfilled r'
          ∧ untimed <$> ruleResults r' = untimed <$> trace)
    ∧ (allowed rAll = true ↔ Forall (λ e, result e = true) trace)
    ∧ (allowed rAny = true ↔ Exists (λ e, result e = true) trace)
    ∧ evaluatePermission clock (CheckArray ["admin"; "edit"]) context
        (adminEditRules host) ModeAny
      = Fulfilled {| allowed := true;
                     ruleResults :=
                       [ {| rule := "admin"; result := true;
                            duration := clock 0%nat; error := None |};
                         {| rule := "edit"; result := false;
                            duration := clock 1%nat; error := None |} ] |}
    ∧ evaluatePermission clock (CheckArray ["admin"; "edit"]) context
        (adminEditRules host) ModeAll
      = Fulfilled {| allowed := false;
                     ruleResults :=
                       [ {| rule := "admin"; result := true;
                            duration := clock 0%nat; error := None |};
                         {| rule := "edit"; result := false;
                            duration := clock 1%nat; error := None |} ] |}.
Proof.
  destruct (evaluateKeys_settle keys clock context rulesMap) as (trace & Ht & Hk).
  exists trace, {| allowed := every trace; ruleResults := trace |},
    {| allowed := some trace; ruleResults := trace |}.
  split; [exact Ht|].
  split; [exact (evaluatePermission_array _ _ _ _ ModeAll _ Ht)|].
  split; [exact (evaluatePermission_array _ _ _ _ ModeAny _ Ht)|].
  do 2 (split; [reflexivity|]).
  split; [by rewrite <- Hk, length_fmap|].
  split; [exact Hk|].
  split.
  { intros clock' mode.
    destruct (evaluateKeys_settle keys clock' context rulesMap) as (trace' & Ht' & _).
    eexists. split; [exact (evaluatePermission_array _ _ _ _ mode _ Ht')|].
    simpl. eapply evaluateKeys_untimed; eauto. }
  split; [apply every_true|].
  split; [apply some_true|].
  split; reflexivity.
Qed.

(** C4. An empty key set is allowed under mode "all" and denied under
    mode "any", with an empty trace in both cases. *)
Theorem evaluatePermission_empty_key_set clock context rulesMap :
  evaluatePermission clock (CheckArray []) context rulesMap ModeAll
  = Fulfilled {| allowed := true; ruleResults := [] |}
  ∧ evaluatePermission clock (CheckArray []) context rulesMap ModeAny
    = Fulfilled {| allowed := false; ruleResults := [] |}.
Proof. split; reflexivity. Qed.

(** C5. A check that is neither a function, a string nor an array
    resolves (it does not reject) with [allowed: false] and the single
    trace entry [{rule: "unknown", result: false, duration: 0,
    error: "Invalid permission check type"}]. *)
Theorem evaluatePermission_invalid_check clock shape context rulesMap mode :
  evaluatePermission clock (CheckOther shape) context rulesMap mode
  = Fulfilled {| allowed := false;
                 ruleResults :=
                   [ {| rule := "unknown"; result := false; duration := 0;
                        error := Some "Invalid permission check type" |} ] |}.
Proof. reflexivity. Qed.

Lemma includes_true key (xs : list string) : includes key xs = true ↔ key ∈ xs.
Proof.
  unfold includes. rewrite existsb_exists. split.
  - intros (x & Hx & Heq). apply String.eqb_eq in Heq as ->.
    by apply list_elem_of_In.
  - intros H. exists key. split; [by apply list_elem_of_In|].
    apply String.eqb_refl.
Qed.


(** A key that has a rule among the own entries of the map resolves to
    that very rule (named rules take precedence); a key for which the
    map reads nothing, own or inherited, resolves to a rule that, applied
    to a context, returns whether the key is among the context's
    permissions or among its roles. With roles ["admin"], no permissions
    and the rules [{}], the key "admin" is allowed and the key "editor"
    is denied. *)
Lemma resolveStringRule_own_or_membership key rulesMap context :
  (∀ r, ownRules rulesMap !! key = Some r →
        resolveStringRule key rulesMap context = Callable r)
  ∧ (getRule rulesMap key = None →
     ∃ f, resolveStringRule key rulesMap context = Callable f
          ∧ ∀ ctx, ∃ b,
              f ctx = Returned (VBool b)
              ∧ b = (includes key (permissions ctx) || includes key (roles ctx))
              ∧ (b = true ↔ key ∈ permissions ctx ∨ key ∈ roles ctx))
  ∧ (∀ host clock mode,
       evaluatePermission clock (CheckString "admin") adminContext
         (noRules host) mode
       = Fulfilled {| allowed := true;
                      ruleResults := [ {| rule := "admin"; result := true;
                                          duration := clock 0%nat;
                                          error := None |} ] |}
       ∧ evaluatePermission clock (CheckString "editor") adminContext
           (noRules host) mode
         = Fulfilled {| allowed := false;
                        ruleResults := [ {| rule := "editor"; result := false;
                                            duration := clock 0%nat;
                                            error := None |} ] |}).
Proof.
  split; [|split].
  - intros r H. unfold resolveStringRule, getRule. by rewrite H.
  - intros H. unfold resolveStringRule. rewrite H.
    eexists. split; [reflexivity|]. intros ctx.
    eexists. split; [reflexivity|]. split; [reflexivity|].
    rewrite orb_true_iff, !includes_true. done.
  - intros host clock mode. split; reflexivity.
Qed.

(** C2 fails on the code. The rules map [{}] has no rule under
    "constructor" and the context has neither roles nor permissions, so
    the rule the claim describes returns false; yet the key resolves to
    what the object inherits under that name, the function [Object],
    which returns the context, and the check is allowed. Under
    "__proto__" the key resolves to the prototype object, which is not a
    function: the call throws and the check is denied with the TypeError
    as its error. *)
Theorem resolveStringRule_inherited_name_granted host clock mode user resource
    flags :
  ownRules (noRules host) !! "constructor" = None
  ∧ (includes "constructor"
       (permissions (createPermissionContext user resource [] [] flags))
     || includes "constructor"
          (roles (createPermissionContext user resource [] [] flags))) = false
  ∧ evaluatePermission clock (CheckString "constructor")
      (createPermissionContext user resource [] [] flags) (noRules host) mode
    = Fulfilled {| allowed := true;
                   ruleResults := [ {| rule := "constructor"; result := true;
                                       duration := clock 0%nat;
                                       error := None |} ] |}
  ∧ resolveStringRule "__proto__" (noRules host)
      (createPermissionContext user resource [] [] flags)
    = NotCallable (notCallableError host)
  ∧ evaluatePermission clock (CheckString "__proto__")
      (createPermissionContext user resource [] [] flags) (noRules host) mode
    = Fulfilled {| allowed := false;
                   ruleResults := [ {| rule := "__proto__"; result := false;
                                       duration := clock 0%nat;
                                       error := Some (notCallableError host) |} ] |}.
Proof. repeat split; reflexivity. Qed.

Lemma evaluatePermission_settles clock check context rulesMap mode :
  ∃ r, evaluatePermission clock check context rulesMap mode = Fulfilled r.
Proof.
  destruct check as [f|key|keys|shape]; simpl.
  - destruct (evaluateRule_settles (clock 0%nat) (Callable f) context)
      as (out & -> & _).
    simpl. eauto.
  - destruct (evaluateRule_settles (clock 0%nat)
                (resolveStringRule key rulesMap context) context) as (out & -> & _).
    simpl. eauto.
  - destruct (evaluateKeys_settle keys clock context rulesMap) as (trace & Ht & _).
    rewrite Ht, Promise_all_fulfilled. simpl. eauto.
  - eauto.
Qed.





End RuleEngineFacts.

(* ===================================================================== *)
(** * Properties of the dev-tools store *)
(* ===================================================================== *)

Section DevStoreFacts.
Import RuleEngine DevStore Statements.

Implicit Types (w : World) (s : DevToolsState) (h : Heap) (l : loc)
  (items base : list string) (key : string).


Ltac store_unfold :=
  unfold exec, mbind, Store_bind, mret, Store_ret, getWorld, putState,
    putHeap, putListeners, call, alloc, store, getState in *.

Lemma forEach_delivers (ls : list Listener) (arg : DevToolsState) : ∀ w,
  forEach ls arg w
  = (tt, {| heap := heap w; state := state w; listeners := listeners w;
            delivered := delivered w ++ ((λ l, (l, arg)) <$> ls) |}).
Proof.
  induction ls as [|l ls IH]; intros [h s lst d]; simpl.
  - store_unfold. by rewrite app_nil_r.
  - store_unfold. simpl. rewrite IH. simpl. by rewrite <- app_assoc.
Qed.

Lemma notify_delivers w : notify w = (tt, notified (heap w) (state w) w).
Proof.
  unfold notify. store_unfold. simpl. by rewrite forEach_delivers.
Qed.

Lemma putState_notify s w :
  (putState s;; notify) w = (tt, notified (heap w) s w).
Proof.
  store_unfold. simpl. rewrite notify_delivers. reflexivity.
Qed.

Lemma exec_addEvaluation e w :
  exec (addEvaluation e) w
  = notified (heap w)
      {| evaluations := take 100 (e :: evaluations (state w));
         isOpen := isOpen (state w); overrideUser := overrideUser (state w);
         overrideRoles := overrideRoles (state w);
         overridePermissions := overridePermissions (state w);
         overrideFlags := overrideFlags (state w) |} w.
Proof.
  unfold exec, addEvaluation. unfold mbind at 1, Store_bind at 1, getWorld.
  by rewrite putState_notify.
Qed.

Lemma exec_setOverrideRoles r w :
  exec (setOverrideRoles r) w
  = notified (heap w)
      {| evaluations := evaluations (state w);
         isOpen := isOpen (state w); overrideUser := overrideUser (state w);
         overrideRoles := r;
         overridePermissions := overridePermissions (state w);
         overrideFlags := overrideFlags (state w) |} w.
Proof.
  unfold exec, setOverrideRoles. unfold mbind at 1, Store_bind at 1, getWorld.
  by rewrite putState_notify.
Qed.

Lemma exec_setOverridePermissions p w :
  exec (setOverridePermissions p) w
  = notified (heap w)
      {| evaluations := evaluations (state w);
         isOpen := isOpen (state w); overrideUser := overrideUser (state w);
         overrideRoles := overrideRoles (state w);
         overridePermissions := p;
         overrideFlags := overrideFlags (state w) |} w.
Proof.
  unfold exec, setOverridePermissions.
  unfold mbind at 1, Store_bind at 1, getWorld.
  by rewrite putState_notify.
Qed.

Lemma exec_setOverrideFlags f w :
  exec (setOverrideFlags f) w
  = notified (heap w)
      {| evaluations := evaluations (state w);
         isOpen := isOpen (state w); overrideUser := overrideUser (state w);
         overrideRoles := overrideRoles (state w);
         overridePermissions := overridePermissions (state w);
         overrideFlags := f |} w.
Proof.
  unfold exec, setOverrideFlags. unfold mbind at 1, Store_bind at 1, getWorld.
  by rewrite putState_notify.
Qed.

Lemma exec_resetOverrides w :
  exec resetOverrides w
  = notified (heap w)
      {| evaluations := evaluations (state w);
         isOpen := isOpen (state w); overrideUser := None;
         overrideRoles := None; overridePermissions := None;
         overrideFlags := None |} w.
Proof.
  unfold exec, resetOverrides. unfold mbind at 1, Store_bind at 1, getWorld.
  by rewrite putState_notify.
Qed.

Lemma readArray_insert h l items : readArray (<[l := HArray items]> h) l = items.
Proof. unfold readArray. by rewrite lookup_insert_eq. Qed.

Lemma readArray_insert_ne h l l' o :
  l ≠ l' → readArray (<[l := o]> h) l' = readArray h l'.
Proof. intros. unfold readArray. by rewrite lookup_insert_ne. Qed.

Lemma readFlags_insert h l (m : gmap string bool) :
  readFlags (<[l := HFlags m]> h) l = m.
Proof. unfold readFlags. by rewrite lookup_insert_eq. Qed.

Lemma toggleIn_runs l key w :
  toggleIn l key w
  = (length (toggled key (readArray (heap w) l)),
     {| heap := <[l := HArray (toggled key (readArray (heap w) l))]> (heap w);
        state := state w; listeners := listeners w;
        delivered := delivered w |}).
Proof.
  unfold toggleIn, toggled. store_unfold. simpl.
  destruct (indexOf key (readArray (heap w) l) >? -1); simpl;
    by rewrite readArray_insert.
Qed.

(** [toggleRole] as one update of the heap and of the state, followed by
    one notification. *)
Lemma exec_toggleRole role base w :
  let '(l, h0) := workingArray (heap w) (overrideRoles (state w)) base in
  let items := toggled role (readArray h0 l) in
  exec (toggleRole role base) w
  = notified (<[l := HArray items]> h0)
      {| evaluations := evaluations (state w);
         isOpen := isOpen (state w); overrideUser := overrideUser (state w);
         overrideRoles := keptOverride l items;
         overridePermissions := overridePermissions (state w);
         overrideFlags := overrideFlags (state w) |} w.
Proof.
  unfold workingArray, toggleRole, exec.
  unfold mbind at 1, Store_bind at 1, getWorld.
  destruct (overrideRoles (state w)) as [l|] eqn:Ho.
  - unfold mbind at 1, Store_bind at 1, mret at 1, Store_ret at 1.
    unfold mbind, Store_bind. rewrite toggleIn_runs.
    fold (exec (setOverrideRoles
      (if 0 <? Z.of_nat (length (toggled role (readArray (heap w) l)))
       then Some l else None))
      {| heap := <[l := HArray (toggled role (readArray (heap w) l))]> (heap w);
         state := state w; listeners := listeners w;
         delivered := delivered w |}).
    rewrite exec_setOverrideRoles. reflexivity.
  - unfold mbind, Store_bind, alloc. rewrite toggleIn_runs. simpl.
    set (l := fresh (dom (heap w))).
    set (items := toggled role (readArray (<[l:=HArray base]> (heap w)) l)).
    fold (exec (setOverrideRoles (if 0 <? Z.of_nat (length items)
                                  then Some l else None))
      {| heap := <[l := HArray items]> (<[l:=HArray base]> (heap w));
         state := state w; listeners := listeners w;
         delivered := delivered w |}).
    rewrite exec_setOverrideRoles. reflexivity.
Qed.

Lemma exec_togglePermission permission base w :
  let '(l, h0) := workingArray (heap w) (overridePermissions (state w)) base in
  let items := toggled permission (readArray h0 l) in
  exec (togglePermission permission base) w
  = notified (<[l := HArray items]> h0)
      {| evaluations := evaluations (state w);
         isOpen := isOpen (state w); overrideUser := overrideUser (state w);
         overrideRoles := overrideRoles (state w);
         overridePermissions := keptOverride l items;
         overrideFlags := overrideFlags (state w) |} w.
Proof.
  unfold workingArray, togglePermission, exec.
  unfold mbind at 1, Store_bind at 1, getWorld.
  destruct (overridePermissions (state w)) as [l|] eqn:Ho.
  - unfold mbind at 1, Store_bind at 1, mret at 1, Store_ret at 1.
    unfold mbind, Store_bind. rewrite toggleIn_runs.
    fold (exec (setOverridePermissions
      (if 0 <? Z.of_nat (length (toggled permission (readArray (heap w) l)))
       then Some l else None))
      {| heap := <[l := HArray (toggled permission (readArray (heap w) l))]>
                   (heap w);
         state := state w; listeners := listeners w;
         delivered := delivered w |}).
    rewrite exec_setOverridePermissions. reflexivity.
  - unfold mbind, Store_bind, alloc. rewrite toggleIn_runs. simpl.
    set (l := fresh (dom (heap w))).
    set (items := toggled permission (readArray (<[l:=HArray base]> (heap w)) l)).
    fold (exec (setOverridePermissions (if 0 <? Z.of_nat (length items)
                                        then Some l else None))
      {| heap := <[l := HArray items]> (<[l:=HArray base]> (heap w));
         state := state w; listeners := listeners w;
         delivered := delivered w |}).
    rewrite exec_setOverridePermissions. reflexivity.
Qed.

Lemma exec_toggleFlag flag (base : gmap string bool) w :
  let '(l, h0) := workingFlags (heap w) (overrideFlags (state w)) base in
  let entries := readFlags h0 l in
  exec (toggleFlag flag base) w
  = notified (<[l := HFlags (assignFlag entries flag (notFlag entries flag))]> h0)
      {| evaluations := evaluations (state w);
         isOpen := isOpen (state w); overrideUser := overrideUser (state w);
         overrideRoles := overrideRoles (state w);
         overridePermissions := overridePermissions (state w);
         overrideFlags := Some l |} w.
Proof.
  unfold workingFlags, toggleFlag, exec.
  unfold mbind at 1, Store_bind at 1, getWorld.
  destruct (overrideFlags (state w)) as [l|] eqn:Ho.
  - unfold mbind at 1, Store_bind at 1, mret at 1, Store_ret at 1.
    unfold mbind at 1, Store_bind at 1.
    unfold mbind at 1, Store_bind at 1, store.
    unfold mbind at 1, Store_bind at 1, getWorld, putHeap.
    fold (exec (setOverrideFlags (Some l))
      {| heap := <[l := HFlags (assignFlag (readFlags (heap w) l) flag
                                  (notFlag (readFlags (heap w) l) flag))]> (heap w);
         state := state w; listeners := listeners w;
         delivered := delivered w |}).
    rewrite exec_setOverrideFlags. reflexivity.
  - unfold mbind at 1, Store_bind at 1, alloc.
    unfold mbind at 1, Store_bind at 1, getWorld.
    unfold mbind at 1, Store_bind at 1, store.
    unfold mbind at 1, Store_bind at 1, getWorld, putHeap.
    cbn [heap state listeners delivered].
    set (l := fresh (dom (heap w))).
    set (h0 := <[l:=HFlags base]> (heap w)).
    fold (exec (setOverrideFlags (Some l))
      {| heap := <[l := HFlags (assignFlag (readFlags h0 l) flag
                                  (notFlag (readFlags h0 l) flag))]> h0;
         state := state w; listeners := listeners w;
         delivered := delivered w |}).
    rewrite exec_setOverrideFlags. reflexivity.
Qed.

Ltac setter_exec :=
  unfold exec; unfold mbind at 1, Store_bind at 1, getWorld;
  rewrite putState_notify; reflexivity.

Lemma exec_clearEvaluations w :
  exec clearEvaluations w
  = notified (heap w)
      {| evaluations := [];
         isOpen := isOpen (state w); overrideUser := overrideUser (state w);
         overrideRoles := overrideRoles (state w);
         overridePermissions := overridePermissions (state w);
         overrideFlags := overrideFlags (state w) |} w.
Proof. unfold clearEvaluations. setter_exec. Qed.

Lemma exec_togglePanel w :
  exec togglePanel w
  = notified (heap w)
      {| evaluations := evaluations (state w);
         isOpen := negb (isOpen (state w));
         overrideUser := overrideUser (state w);
         overrideRoles := overrideRoles (state w);
         overridePermissions := overridePermissions (state w);
         overrideFlags := overrideFlags (state w) |} w.
Proof. unfold togglePanel. setter_exec. Qed.

Lemma exec_setOpen b w :
  exec (setOpen b) w
  = notified (heap w)
      {| evaluations := evaluations (state w);
         isOpen := b; overrideUser := overrideUser (state w);
         overrideRoles := overrideRoles (state w);
         overridePermissions := overridePermissions (state w);
         overrideFlags := overrideFlags (state w) |} w.
Proof. unfold setOpen. setter_exec. Qed.

Lemma exec_setOverrideUser u w :
  exec (setOverrideUser u) w
  = notified (heap w)
      {| evaluations := evaluations (state w);
         isOpen := isOpen (state w); overrideUser := u;
         overrideRoles := overrideRoles (state w);
         overridePermissions := overridePermissions (state w);
         overrideFlags := overrideFlags (state w) |} w.
Proof. unfold setOverrideUser. setter_exec. Qed.

(** Every method is one update followed by one notification. *)
Lemma run_notifies o w : ∃ h' s', exec (run o) w = notified h' s' w.
Proof.
  destruct o; simpl.
  - rewrite exec_addEvaluation; eauto.
  - rewrite exec_clearEvaluations; eauto.
  - rewrite exec_togglePanel; eauto.
  - rewrite exec_setOpen; eauto.
  - rewrite exec_setOverrideUser; eauto.
  - rewrite exec_setOverrideRoles; eauto.
  - rewrite exec_setOverridePermissions; eauto.
  - rewrite exec_setOverrideFlags; eauto.
  - pose proof (exec_toggleRole role currentRoles w) as H.
    destruct (workingArray _ _ _). rewrite H; eauto.
  - pose proof (exec_togglePermission permission currentPermissions w) as H.
    destruct (workingArray _ _ _). rewrite H; eauto.
  - pose proof (exec_toggleFlag flag currentFlags w) as H.
    destruct (workingFlags _ _ _). rewrite H; eauto.
  - rewrite exec_resetOverrides; eauto.
Qed.

(** Only [addEvaluation] and [clearEvaluations] touch the history. *)
Lemma run_evaluations o w :
  evaluations (state (exec (run o) w))
  = match o with
    | OpAddEvaluation e => take 100 (e :: evaluations (state w))
    | OpClearEvaluations => []
    | _ => evaluations (state w)
    end.
Proof.
  destruct o; simpl.
  - by rewrite exec_addEvaluation.
  - by rewrite exec_clearEvaluations.
  - by rewrite exec_togglePanel.
  - by rewrite exec_setOpen.
  - by rewrite exec_setOverrideUser.
  - by rewrite exec_setOverrideRoles.
  - by rewrite exec_setOverridePermissions.
  - by rewrite exec_setOverrideFlags.
  - pose proof (exec_toggleRole role currentRoles w) as H.
    destruct (workingArray _ _ _). by rewrite H.
  - pose proof (exec_togglePermission permission currentPermissions w) as H.
    destruct (workingArray _ _ _). by rewrite H.
  - pose proof (exec_toggleFlag flag currentFlags w) as H.
    destruct (workingFlags _ _ _). by rewrite H.
  - by rewrite exec_resetOverrides.
Qed.

Lemma runAll_cons o ops w : runAll (o :: ops) w = runAll ops (exec (run o) w).
Proof. reflexivity. Qed.

Lemma runAll_snoc ops o w : runAll (ops ++ [o]) w = exec (run o) (runAll ops w).
Proof. unfold runAll. by rewrite foldl_app. Qed.

Lemma runAll_history_bounded ops : ∀ w,
  (length (evaluations (state w)) ≤ 100)%nat →
  (length (evaluations (state (runAll ops w))) ≤ 100)%nat.
Proof.
  induction ops as [|o ops IH]; intros w Hw; [done|].
  rewrite runAll_cons. apply IH. rewrite run_evaluations.
  destruct o; try done.
  - rewrite length_take. lia.
  - simpl. lia.
Qed.

Lemma take_app_take {A} (n : nat) (xs ys : list A) :
  take n (xs ++ take n ys) = take n (xs ++ ys).
Proof.
  rewrite !take_app, take_take. do 2 f_equal. lia.
Qed.

Lemma runAll_addEvaluations (rs : list PermissionEvaluation) : ∀ w,
  (length (evaluations (state w)) ≤ 100)%nat →
  evaluations (state (runAll (OpAddEvaluation <$> rs) w))
  = take 100 (reverse rs ++ evaluations (state w)).
Proof.
  induction rs as [|r rs IH]; intros w Hw.
  - simpl. by rewrite take_ge.
  - rewrite fmap_cons, runAll_cons, IH, run_evaluations, reverse_cons.
    + rewrite take_app_take. by rewrite <- app_assoc.
    + rewrite run_evaluations, length_take. lia.
Qed.

(** C6. [addEvaluation] puts the new record at index 0 and keeps the
    first 100 entries of the result, so that a full history loses its
    last (oldest) entry; from a new store no sequence of calls makes the
    history longer than 100; and after 101 appended records the history
    holds exactly 100, namely the 2nd to the 101st, newest first: the
    101st is at index 0 and the 1st is gone. *)
Theorem addEvaluation_bounded_history (rs : list PermissionEvaluation) h :
  length rs = 101%nat →
  (∀ w e,
     evaluations (state (exec (addEvaluation e) w))
     = take 100 (e :: evaluations (state w))
     ∧ evaluations (state (exec (addEvaluation e) w)) !! 0%nat = Some e
     ∧ (length (evaluations (state (exec (addEvaluation e) w))) ≤ 100)%nat
     ∧ evaluations (state (exec (addEvaluation e) w))
       = e :: take 99 (evaluations (state w)))
  ∧ (∀ ops,
       (length (evaluations (state (runAll ops (newDevStore h)))) ≤ 100)%nat)
  ∧ length (evaluations (state (runAll (OpAddEvaluation <$> rs)
                                  (newDevStore h)))) = 100%nat
  ∧ evaluations (state (runAll (OpAddEvaluation <$> rs) (newDevStore h)))
    = reverse (drop 1 rs)
  ∧ evaluations (state (runAll (OpAddEvaluation <$> rs) (newDevStore h)))
      !! 0%nat = last rs
  ∧ (∀ r1, head rs = Some r1 → r1 ∉ drop 1 rs →
       r1 ∉ evaluations (state (runAll (OpAddEvaluation <$> rs)
                                  (newDevStore h)))).
Proof.
  intros Hlen.
  assert (Hall : evaluations (state (runAll (OpAddEvaluation <$> rs)
                                       (newDevStore h)))
                 = reverse (drop 1 rs)).
  { rewrite runAll_addEvaluations by (simpl; lia).
    simpl. rewrite app_nil_r.
    destruct rs as [|r1 rest]; [done|]. simpl in Hlen.
    rewrite reverse_cons. change (drop 1 (r1 :: rest)) with rest.
    apply take_app_length'. rewrite length_reverse. lia. }
  split.
  { intros w e. rewrite exec_addEvaluation. simpl.
    split; [done|]. split; [done|]. split; [|done].
    rewrite length_take. lia. }
  split.
  { intros ops. apply runAll_history_bounded. simpl. lia. }
  rewrite Hall.
  split.
  { rewrite length_reverse, length_drop. lia. }
  split; [done|].
  split.
  { rewrite <- head_lookup, head_reverse.
    destruct rs as [|r1 [|r2 rest]]; try done. }
  intros r1 _ Hnot. by rewrite elem_of_reverse.
Qed.

Lemma addEvaluation_bounded_history_witness :
  length (evaluations (state (runAll
            (OpAddEvaluation <$> (sampleEvaluation <$> seq 0 101))
            (newDevStore ∅)))) = 100%nat
  ∧ evaluations (state (runAll
            (OpAddEvaluation <$> (sampleEvaluation <$> seq 0 101))
            (newDevStore ∅))) !! 0%nat = Some (sampleEvaluation 100).
Proof.
  destruct (addEvaluation_bounded_history (sampleEvaluation <$> seq 0 101) ∅)
    as (_ & _ & Hlen & _ & Hhead & _).
  - reflexivity.
  - split; [exact Hlen|]. rewrite Hhead. reflexivity.
Defined.

Lemma indexOf_spec key items :
  (key ∈ items ∧ (0 ≤ indexOf key items)
   ∧ splice1 (indexOf key items) items = removeFirst key items)
  ∨ ((key ∉ items) ∧ indexOf key items = -1).
Proof.
  induction items as [|y ys IH]; simpl.
  - right. split; [apply not_elem_of_nil|done].
  - destruct (String.eqb y key) eqn:Heq.
    + apply String.eqb_eq in Heq as ->. left.
      split; [rewrite elem_of_cons; by left|]. done.
    + apply String.eqb_neq in Heq.
      destruct IH as [(Hin & Hge & Hsp) | (Hnot & Hidx)].
      * left. split; [rewrite elem_of_cons; by right|].
        destruct (indexOf key ys =? -1) eqn:Hm; [lia|].
        split; [lia|]. unfold splice1 in *.
        rewrite Z2Nat.inj_add by lia. rewrite Nat.add_1_r. simpl.
        by rewrite Hsp.
      * right. rewrite Hidx. simpl. split; [|done].
        rewrite elem_of_cons. intros [->|]; done.
Qed.

Lemma toggled_flipFirst key items : toggled key items = flipFirst key items.
Proof.
  unfold toggled, flipFirst.
  destruct (indexOf_spec key items) as [(Hin & Hge & Hsp) | (Hnot & Hidx)].
  - rewrite bool_decide_eq_true_2 by done.
    destruct (indexOf key items >? -1) eqn:Hc; [done|lia].
  - rewrite bool_decide_eq_false_2 by done. by rewrite Hidx.
Qed.

Lemma elem_of_removeFirst_ne k key items :
  k ≠ key → (k ∈ removeFirst key items ↔ k ∈ items).
Proof.
  intros Hne. induction items as [|y ys IH]; simpl; [done|].
  destruct (String.eqb y key) eqn:Heq.
  - apply String.eqb_eq in Heq as ->. rewrite elem_of_cons.
    split; [by right|]. by intros [?|?].
  - rewrite !elem_of_cons, IH. done.
Qed.

Lemma not_elem_of_removeFirst key items :
  NoDup items → key ∉ removeFirst key items.
Proof.
  induction 1 as [|y ys Hy Hnd IH]; simpl; [apply not_elem_of_nil|].
  destruct (String.eqb y key) eqn:Heq.
  - by apply String.eqb_eq in Heq as ->.
  - apply String.eqb_neq in Heq. rewrite elem_of_cons.
    intros [Hk|Hk]; [by symmetry in Hk|by apply IH].
Qed.

(** What a listener or a caller reads in the role override after
    [toggleRole], and where the store keeps it. *)
Lemma toggleRole_result role base w :
  let w' := exec (toggleRole role base) w in
  let result :=
    flipFirst role (workingItems (heap w) (overrideRoles (state w)) base) in
  v_overrideRoles (view (heap w') (state w'))
  = (if bool_decide (result = []) then None else Some result)
  ∧ overrideRoles (state w')
    = keptOverride (workingArray (heap w) (overrideRoles (state w)) base).1
        result
  ∧ heap w'
    = <[(workingArray (heap w) (overrideRoles (state w)) base).1
        := HArray result]>
        (workingArray (heap w) (overrideRoles (state w)) base).2.
Proof.
  pose proof (exec_toggleRole role base w) as H.
  unfold workingItems. cbv zeta.
  destruct (workingArray _ _ _) as [l h0] eqn:Hw. rewrite H. clear H.
  assert (Hitems : readArray h0 l
                   = match overrideRoles (state w) with
                     | Some l0 => readArray (heap w) l0
                     | None => base
                     end).
  { unfold workingArray in Hw. destruct (overrideRoles (state w)).
    - by injection Hw as <- <-.
    - injection Hw as <- <-. by rewrite readArray_insert. }
  rewrite <- Hitems, toggled_flipFirst. cbn [fst snd].
  split; [|done].
  unfold view, notified, keptOverride; simpl.
  destruct (flipFirst role (readArray h0 l)) as [|x xs] eqn:Hf; simpl; [done|].
  by rewrite readArray_insert.
Qed.

Lemma togglePermission_result permission base w :
  let w' := exec (togglePermission permission base) w in
  let result :=
    flipFirst permission
      (workingItems (heap w) (overridePermissions (state w)) base) in
  v_overridePermissions (view (heap w') (state w'))
  = (if bool_decide (result = []) then None else Some result)
  ∧ overridePermissions (state w')
    = keptOverride
        (workingArray (heap w) (overridePermissions (state w)) base).1 result
  ∧ heap w'
    = <[(workingArray (heap w) (overridePermissions (state w)) base).1
        := HArray result]>
        (workingArray (heap w) (overridePermissions (state w)) base).2.
Proof.
  pose proof (exec_togglePermission permission base w) as H.
  unfold workingItems. cbv zeta.
  destruct (workingArray _ _ _) as [l h0] eqn:Hw. rewrite H. clear H.
  assert (Hitems : readArray h0 l
                   = match overridePermissions (state w) with
                     | Some l0 => readArray (heap w) l0
                     | None => base
                     end).
  { unfold workingArray in Hw. destruct (overridePermissions (state w)).
    - by injection Hw as <- <-.
    - injection Hw as <- <-. by rewrite readArray_insert. }
  rewrite <- Hitems, toggled_flipFirst. cbn [fst snd].
  split; [|done].
  unfold view, notified, keptOverride; simpl.
  destruct (flipFirst permission (readArray h0 l)) as [|x xs] eqn:Hf; simpl;
    [done|].
  by rewrite readArray_insert.
Qed.

(** C7, as stated, fails: after the second call the override is not
    absent, it is the array ["a", "b"]. *)
Lemma toggleRole_twice_counterexample :
  let w1 := exec (toggleRole "x" ["a"; "b"]) (newDevStore ∅) in
  let w2 := exec (toggleRole "x" ["a"; "b"]) w1 in
  overrideRoles (state (newDevStore ∅)) = None
  ∧ v_overrideRoles (view (heap w1) (state w1)) = Some ["a"; "b"; "x"]
  ∧ overrideRoles (state w2) ≠ None
  ∧ v_overrideRoles (view (heap w2) (state w2)) = Some ["a"; "b"].
Proof.
  cbv zeta. split; [reflexivity|]. split; [reflexivity|].
  split; [|reflexivity]. vm_compute. discriminate.
Qed.

(** C7, amended. Starting with no role override, [toggleRole("x",
    ["a","b"])] sets the override to ["a","b","x"]; the second call with
    the same arguments sets it to the explicit list ["a","b"], held in the
    same array, and not to absent. After any call of [toggleRole], from
    any state, the override is absent exactly when the toggled list (the
    working array after the splice or the push) is empty, and reads as
    that list otherwise: with base roles [] the first call sets it to
    ["x"] and the second call clears it. *)
Theorem toggleRole_twice_keeps_override w :
  overrideRoles (state w) = None →
  v_overrideRoles (view (heap (exec (toggleRole "x" ["a"; "b"]) w))
                        (state (exec (toggleRole "x" ["a"; "b"]) w)))
  = Some ["a"; "b"; "x"]
  ∧ v_overrideRoles
      (view (heap (exec (toggleRole "x" ["a"; "b"])
                     (exec (toggleRole "x" ["a"; "b"]) w)))
            (state (exec (toggleRole "x" ["a"; "b"])
                      (exec (toggleRole "x" ["a"; "b"]) w))))
    = Some ["a"; "b"]
  ∧ overrideRoles (state (exec (toggleRole "x" ["a"; "b"])
                            (exec (toggleRole "x" ["a"; "b"]) w)))
    = overrideRoles (state (exec (toggleRole "x" ["a"; "b"]) w))
  ∧ is_Some (overrideRoles (state (exec (toggleRole "x" ["a"; "b"]) w)))
  ∧ v_overrideRoles (view (heap (exec (toggleRole "x" []) w))
                          (state (exec (toggleRole "x" []) w)))
    = Some ["x"]
  ∧ overrideRoles (state (exec (toggleRole "x" [])
                            (exec (toggleRole "x" []) w)))
    = None
  ∧ (∀ role base w',
       (overrideRoles (state (exec (toggleRole role base) w')) = None
        ↔ toggled role
            (workingItems (heap w') (overrideRoles (state w')) base) = [])
       ∧ (toggled role (workingItems (heap w') (overrideRoles (state w')) base)
          ≠ [] →
          v_overrideRoles (view (heap (exec (toggleRole role base) w'))
                                (state (exec (toggleRole role base) w')))
          = Some (toggled role
                    (workingItems (heap w') (overrideRoles (state w')) base)))).
Proof.
  intros Ho.
  assert (Hgeneral : ∀ role base w',
    (overrideRoles (state (exec (toggleRole role base) w')) = None
     ↔ toggled role
         (workingItems (heap w') (overrideRoles (state w')) base) = [])
    ∧ (toggled role (workingItems (heap w') (overrideRoles (state w')) base)
       ≠ [] →
       v_overrideRoles (view (heap (exec (toggleRole role base) w'))
                             (state (exec (toggleRole role base) w')))
       = Some (toggled role
                 (workingItems (heap w') (overrideRoles (state w')) base)))).
  { intros role base w'.
    destruct (toggleRole_result role base w') as (Hv & Hkept & _).
    rewrite toggled_flipFirst. rewrite Hkept, Hv. unfold keptOverride.
    destruct (flipFirst role
                (workingItems (heap w') (overrideRoles (state w')) base))
      as [|x xs]; split; done. }
  assert (Htwice : ∀ base first second,
    flipFirst "x" base = first → first ≠ [] → flipFirst "x" first = second →
    let w1 := exec (toggleRole "x" base) w in
    let w2 := exec (toggleRole "x" base) w1 in
    v_overrideRoles (view (heap w1) (state w1)) = Some first
    ∧ overrideRoles (state w1) = Some (fresh (dom (heap w)))
    ∧ v_overrideRoles (view (heap w2) (state w2))
      = (if bool_decide (second = []) then None else Some second)
    ∧ overrideRoles (state w2) = keptOverride (fresh (dom (heap w))) second).
  { intros base first second Hfirst Hne Hsecond w1 w2.
    destruct (toggleRole_result "x" base w) as (Hv1 & Ho1 & Hh1).
    fold w1 in Hv1, Ho1, Hh1.
    rewrite Ho in Hv1, Ho1, Hh1. simpl in Hv1, Ho1, Hh1.
    rewrite Hfirst in Hv1, Ho1, Hh1.
    rewrite bool_decide_eq_false_2 in Hv1 by done.
    assert (Hk : keptOverride (fresh (dom (heap w))) first
                 = Some (fresh (dom (heap w)))).
    { unfold keptOverride. destruct first; [done|reflexivity]. }
    rewrite Hk in Ho1.
    destruct (toggleRole_result "x" base w1) as (Hv2 & Ho2 & Hh2).
    fold w2 in Hv2, Ho2, Hh2.
    rewrite Ho1 in Hv2, Ho2. simpl in Hv2, Ho2.
    rewrite Hh1, readArray_insert, Hsecond in Hv2, Ho2.
    done. }
  destruct (Htwice ["a"; "b"] ["a"; "b"; "x"] ["a"; "b"])
    as (H1 & H2 & H3 & H4); [reflexivity|done|reflexivity|].
  destruct (Htwice [] ["x"] []) as (E1 & E2 & E3 & E4);
    [reflexivity|done|reflexivity|].
  split; [exact H1|]. split; [exact H3|].
  split; [by rewrite H4, H2|]. split; [by rewrite H2|].
  split; [exact E1|]. split; [exact E4|]. exact Hgeneral.
Qed.

Lemma toggleRole_twice_keeps_override_witness :
  v_overrideRoles
    (view (heap (exec (toggleRole "x" ["a"; "b"])
                   (exec (toggleRole "x" ["a"; "b"]) (newDevStore ∅))))
          (state (exec (toggleRole "x" ["a"; "b"])
                    (exec (toggleRole "x" ["a"; "b"]) (newDevStore ∅)))))
  = Some ["a"; "b"].
Proof.
  destruct (toggleRole_twice_keeps_override (newDevStore ∅) eq_refl)
    as (_ & H & _).
  exact H.
Defined.

Lemma flipFirst_flips key items :
  NoDup items → (key ∈ flipFirst key items ↔ key ∉ items).
Proof.
  intros Hnd. unfold flipFirst. case_bool_decide as Hin.
  - split; [|done]. intros H. by apply (not_elem_of_removeFirst key items) in H.
  - split; [done|]. intros _. rewrite elem_of_app, list_elem_of_singleton.
    by right.
Qed.

Lemma flipFirst_others k key items :
  k ≠ key → (k ∈ flipFirst key items ↔ k ∈ items).
Proof.
  intros Hne. unfold flipFirst. case_bool_decide as Hin.
  - by apply elem_of_removeFirst_ne.
  - rewrite elem_of_app, list_elem_of_singleton. split; [by intros [?|?]|by left].
Qed.

Lemma toggleOutcome_intro (field : DevToolsState → option loc) key base w w' :
  (readArray (heap w') <$> field (state w'))
  = (if bool_decide (flipFirst key (workingItems (heap w) (field (state w))
                                      base) = [])
     then None
     else Some (flipFirst key (workingItems (heap w) (field (state w)) base))) →
  field (state w')
  = keptOverride (workingArray (heap w) (field (state w)) base).1
      (flipFirst key (workingItems (heap w) (field (state w)) base)) →
  heap w'
  = <[(workingArray (heap w) (field (state w)) base).1
      := HArray (flipFirst key (workingItems (heap w) (field (state w)) base))]>
      (workingArray (heap w) (field (state w)) base).2 →
  ToggleOutcome field key base w w'.
Proof.
  intros Hview Hfield Hheap. unfold ToggleOutcome. cbv zeta.
  split; [exact Hview|].
  split.
  { intros l Hl. rewrite Hl in Hfield, Hheap. simpl in Hfield, Hheap.
    rewrite Hl. split; [exact Hheap|].
    intros Hne. rewrite Hfield. unfold keptOverride, workingItems in *.
    cbn [fst]. destruct (flipFirst key (readArray (heap w) l));
      [by destruct Hne|reflexivity]. }
  split.
  { intros Hnone l Hl. rewrite Hnone in Hheap. simpl in Hheap.
    assert (fresh (dom (heap w)) ≠ l).
    { intros <-. by apply (is_fresh (dom (heap w))). }
    rewrite Hheap. by rewrite !lookup_insert_ne. }
  split; [apply flipFirst_flips|].
  intros k. apply flipFirst_others.
Qed.

(** C8 fails on the code. With no override and the base roles
    ["a", "a"], the working items are ["a", "a"]; the role "a" is among
    them, and [toggleRole("a", ["a", "a"])] leaves the override
    ["a"]: only the first occurrence was spliced out, so that the role is
    still a member and its membership has not been flipped. *)
Theorem toggleRole_duplicates_counterexample :
  workingItems (heap (newDevStore ∅)) (overrideRoles (state (newDevStore ∅)))
    ["a"; "a"] = ["a"; "a"]
  ∧ "a" ∈ ["a"; "a"]
  ∧ v_overrideRoles
      (view (heap (exec (toggleRole "a" ["a"; "a"]) (newDevStore ∅)))
            (state (exec (toggleRole "a" ["a"; "a"]) (newDevStore ∅))))
    = Some ["a"]
  ∧ "a" ∈ ["a"].
Proof.
  split; [reflexivity|]. split; [rewrite elem_of_cons; by left|].
  split; [reflexivity|]. rewrite elem_of_cons; by left.
Qed.

(** What the toggles of a role and of a permission do. The working
    items are those of the current override if there is one and those of
    a copy of the base otherwise; the first occurrence of the key is
    removed if the key occurs, else the key is appended (so the
    membership of the key is flipped whenever the working items hold no
    duplicate, and no other key is affected); the result is written back
    as the override, except that an empty result leaves the override
    absent. *)
Lemma toggle_first_occurrence key base w :
  ToggleOutcome overrideRoles key base w (exec (toggleRole key base) w)
  ∧ ToggleOutcome overridePermissions key base w
      (exec (togglePermission key base) w).
Proof.
  split.
  - destruct (toggleRole_result key base w) as (Hv & Ho & Hh).
    by apply toggleOutcome_intro.
  - destruct (togglePermission_result key base w) as (Hv & Ho & Hh).
    by apply toggleOutcome_intro.
Qed.

Lemma toggle_first_occurrence_witness :
  "x" ∈ flipFirst "x" ["a"; "b"] ∧ ("a" ∈ flipFirst "x" ["a"; "b"] ↔ "a" ∈ ["a"; "b"]).
Proof.
  destruct (toggle_first_occurrence "x" ["a"; "b"] (newDevStore ∅))
    as ((_ & _ & _ & Hflip & Hother) & _).
  split.
  - apply Hflip.
    + apply (bool_decide_unpack _). by vm_compute.
    + apply (bool_decide_unpack _). by vm_compute.
  - apply Hother. discriminate.
Defined.

Lemma run_overrideFlags o w :
  overrideFlags (state (exec (run o) w))
  = match o with
    | OpSetOverrideFlags f => f
    | OpToggleFlag _ base =>
        Some (workingFlags (heap w) (overrideFlags (state w)) base).1
    | OpResetOverrides => None
    | _ => overrideFlags (state w)
    end.
Proof.
  destruct o; simpl.
  - by rewrite exec_addEvaluation.
  - by rewrite exec_clearEvaluations.
  - by rewrite exec_togglePanel.
  - by rewrite exec_setOpen.
  - by rewrite exec_setOverrideUser.
  - by rewrite exec_setOverrideRoles.
  - by rewrite exec_setOverridePermissions.
  - by rewrite exec_setOverrideFlags.
  - pose proof (exec_toggleRole role currentRoles w) as H.
    destruct (workingArray _ _ _). by rewrite H.
  - pose proof (exec_togglePermission permission currentPermissions w) as H.
    destruct (workingArray _ _ _). by rewrite H.
  - pose proof (exec_toggleFlag flag currentFlags w) as H.
    destruct (workingFlags _ _ _). by rewrite H.
  - by rewrite exec_resetOverrides.
Qed.

(** What [toggleFlag] does: the flag override is present afterwards, at
    the place of the former override if there was one; it holds the
    entries of the former override, or of a copy of the base, after the
    assignment of the negation of what the key reads; for a key that is
    not a name of [Object.prototype] this is the entry with the negation
    of the key's value, a missing entry counting as false. No method
    makes a present flag override absent except [resetOverrides] and
    [setOverrideFlags(undefined)], which both do. *)
Lemma toggleFlag_effect flag (base : gmap string bool) w :
  ∃ l,
    overrideFlags (state (exec (toggleFlag flag base) w)) = Some l
    ∧ readFlags (heap (exec (toggleFlag flag base) w)) l
      = assignFlag (workingEntries (heap w) (overrideFlags (state w)) base)
          flag
          (notFlag (workingEntries (heap w) (overrideFlags (state w)) base)
             flag)
    ∧ (flag ∉ objectPrototypeNames →
       readFlags (heap (exec (toggleFlag flag base) w)) l
       = <[flag := negb (default false
                           (workingEntries (heap w) (overrideFlags (state w))
                              base !! flag))]>
           (workingEntries (heap w) (overrideFlags (state w)) base))
    ∧ (∀ l0, overrideFlags (state w) = Some l0 → l = l0)
    ∧ (∀ o w0, is_Some (overrideFlags (state w0)) →
               overrideFlags (state (exec (run o) w0)) = None →
               o = OpResetOverrides ∨ o = OpSetOverrideFlags None)
    ∧ overrideFlags (state (exec resetOverrides
                              (exec (toggleFlag flag base) w))) = None
    ∧ overrideFlags (state (exec (setOverrideFlags None)
                              (exec (toggleFlag flag base) w))) = None.
Proof.
  pose proof (exec_toggleFlag flag base w) as H.
  destruct (workingFlags _ _ _) as [l h0] eqn:Hw.
  assert (Hentries : readFlags h0 l
                     = workingEntries (heap w) (overrideFlags (state w)) base).
  { unfold workingFlags, workingEntries in *.
    destruct (overrideFlags (state w)).
    - by injection Hw as <- <-.
    - injection Hw as <- <-. by rewrite readFlags_insert. }
  exists l. rewrite H. cbn [notified state heap overrideFlags].
  split; [reflexivity|].
  split; [by rewrite readFlags_insert, Hentries|].
  split.
  { intros Hname. rewrite readFlags_insert, Hentries.
    unfold assignFlag, notFlag, readFlag.
    rewrite bool_decide_eq_false_2.
    - f_equal. destruct (_ !! flag); [done|].
      by rewrite bool_decide_eq_false_2.
    - intros [-> _]. apply Hname. apply (bool_decide_unpack _). by vm_compute. }
  split.
  { intros l0 Hl0. unfold workingFlags in Hw. rewrite Hl0 in Hw.
    by injection Hw as <- _. }
  split.
  { intros o w0 [l0 Hsome] Hnone. rewrite run_overrideFlags in Hnone.
    destruct o; try (rewrite Hsome in Hnone; discriminate); try discriminate.
    - right. by rewrite Hnone.
    - by left. }
  split.
  - by rewrite exec_resetOverrides.
  - by rewrite exec_setOverrideFlags.
Qed.

(** C10 fails on the code. From no override and the base [{}], where no
    flag has a value, [toggleFlag("beta", {})] leaves [{beta: true}], the
    negation of the missing value; but [toggleFlag("constructor", {})]
    leaves [{constructor: false}], because the key reads the function the
    object inherits, and [toggleFlag("__proto__", {})] leaves [{}], with
    no entry under the key, because the assignment goes to the inherited
    setter. The override is present in the three cases. *)
Theorem toggleFlag_inherited_names :
  v_overrideFlags
    (view (heap (exec (toggleFlag "beta" ∅) (newDevStore ∅)))
          (state (exec (toggleFlag "beta" ∅) (newDevStore ∅))))
  = Some {["beta" := true]}
  ∧ v_overrideFlags
      (view (heap (exec (toggleFlag "constructor" ∅) (newDevStore ∅)))
            (state (exec (toggleFlag "constructor" ∅) (newDevStore ∅))))
    = Some {["constructor" := false]}
  ∧ v_overrideFlags
      (view (heap (exec (toggleFlag "__proto__" ∅) (newDevStore ∅)))
            (state (exec (toggleFlag "__proto__" ∅) (newDevStore ∅))))
    = Some ∅.
Proof. repeat split; by vm_compute. Qed.

(** The calls to listeners a method makes: one per subscribed listener,
    each with the state object as it is after the update. *)
Lemma run_delivers_once o w :
  listeners (exec (run o) w) = listeners w
  ∧ delivered (exec (run o) w)
    = (delivered w ++ ((λ l, (l, state (exec (run o) w))) <$> listeners w))%list.
Proof.
  destruct (run_notifies o w) as (h' & s' & ->). done.
Qed.

Lemma subscribe_NoDup listener w :
  NoDup (listeners w) → NoDup (listeners (exec (subscribe listener) w)).
Proof.
  intros Hnd. unfold subscribe. store_unfold. simpl.
  case_bool_decide as Hin; simpl; [done|].
  apply NoDup_app. split; [done|]. split.
  - intros x Hx Hx'. apply list_elem_of_singleton in Hx' as ->. done.
  - apply NoDup_singleton.
Qed.

(** [resetOverrides] clears the four overrides in one update and calls
    each listener once, with the cleared state. *)
Lemma resetOverrides_once w :
  let w' := exec resetOverrides w in
  overrideUser (state w') = None ∧ overrideRoles (state w') = None
  ∧ overridePermissions (state w') = None ∧ overrideFlags (state w') = None
  ∧ delivered w' = (delivered w ++ ((λ l, (l, state w')) <$> listeners w))%list.
Proof. cbv zeta. by rewrite exec_resetOverrides. Qed.

(** C9 fails on the code. A listener subscribes; [toggleRole("x",
    ["a","b"])] hands it a state object whose role override reads
    ["a","b","x"]; after [toggleRole("y", ["a","b"])] that same object,
    delivered by the first call, reads ["a","b","x","y"]: the second call
    pushed onto the array the first snapshot refers to. *)
Theorem toggleRole_mutates_delivered_snapshot :
  let w0 := exec (subscribe 1%nat) (newDevStore ∅) in
  let w1 := exec (toggleRole "x" ["a"; "b"]) w0 in
  let w2 := exec (toggleRole "y" ["a"; "b"]) w1 in
  ∃ snapshot1 snapshot2,
    delivered w1 = [(1%nat, snapshot1)]
    ∧ delivered w2 = [(1%nat, snapshot1); (1%nat, snapshot2)]
    ∧ v_overrideRoles (view (heap w1) snapshot1) = Some ["a"; "b"; "x"]
    ∧ v_overrideRoles (view (heap w2) snapshot1) = Some ["a"; "b"; "x"; "y"]
    ∧ view (heap w2) snapshot1 ≠ view (heap w1) snapshot1.
Proof.
  cbv zeta. eexists _, _.
  split; [reflexivity|]. split; [reflexivity|].
  split; [reflexivity|]. split; [reflexivity|].
  intros Heq. apply (f_equal v_overrideRoles) in Heq.
  vm_compute in Heq. discriminate.
Qed.

End DevStoreFacts.

(* ===================================================================== *)
(** * Further properties of the rule engine *)
(* ===================================================================== *)

Section RuleEngineDecisions.
Import RuleEngine Statements Decisions.

Implicit Types (clock : nat → Z) (context : PermissionContext)
  (rulesMap : PermissionRulesMap) (keys : list string).

Lemma evaluateRule_outcome elapsed (r : RuleValue) context :
  evaluateRule elapsed r context
  = Fulfilled
      {| ro_result := match ruleValue r context with
                      | Some v => Boolean v
                      | None => false
                      end;
         ro_duration := elapsed;
         ro_error := match callRule r context with
                     | Threw e | PromiseRejected e =>
                         Some (if instanceofError e then errorMessage e
                               else String_ e)
                     | _ => None
                     end |}.
Proof. unfold evaluateRule, ruleValue. by destruct (callRule r context). Qed.

Lemma evaluateKey_outcome clock context rulesMap i key :
  ∃ e, evaluateKey clock context rulesMap i key = Fulfilled e
       ∧ rule e = key
       ∧ result e = keyGrants context rulesMap key
       ∧ (is_Some (error e) → result e = false)
       ∧ (is_Some (error e)
          ↔ ruleFails (resolveStringRule key rulesMap context) context).
Proof.
  unfold evaluateKey, keyGrants, ruleFails.
  rewrite !evaluateRule_outcome. unfold ruleValue.
  eexists. split; [reflexivity|]. simpl.
  destruct (callRule (resolveStringRule key rulesMap context) context); simpl;
    repeat split; try done; try (by intros [? ?]); eauto.
Qed.

Lemma evaluateKeys_outcome keys : ∀ clock context rulesMap trace,
  imap (evaluateKey clock context rulesMap) keys = Fulfilled <$> trace →
  result <$> trace = keyGrants context rulesMap <$> keys
  ∧ Forall (λ e, is_Some (error e) → result e = false) trace.
Proof.
  induction keys as [|key keys IH]; intros clock context rulesMap [|e trace];
    try done.
  rewrite imap_cons, !fmap_cons. intros [= He Ht].
  destruct (evaluateKey_outcome clock context rulesMap 0 key)
    as (e' & He' & _ & Hres & Herr & _).
  rewrite He in He'. injection He' as <-.
  destruct (IH (clock ∘ S) context rulesMap trace Ht) as [Hrs Hall].
  split; [by rewrite Hres, Hrs|]. by constructor.
Qed.

Lemma existsb_same_results {A B} (f : A → bool) (g : B → bool) xs ys :
  f <$> xs = g <$> ys → existsb f xs = existsb g ys.
Proof.
  revert ys. induction xs as [|x xs IH]; intros [|y ys]; try done.
  rewrite !fmap_cons. intros [= Hx Hxs]. simpl. by rewrite Hx, (IH ys).
Qed.

Lemma forallb_same_results {A B} (f : A → bool) (g : B → bool) xs ys :
  f <$> xs = g <$> ys → forallb f xs = forallb g ys.
Proof.
  revert ys. induction xs as [|x xs IH]; intros [|y ys]; try done.
  rewrite !fmap_cons. intros [= Hx Hxs]. simpl. by rewrite Hx, (IH ys).
Qed.

(** The decision of a key set, key by key. *)
Lemma evaluatePermission_array_decision clock context rulesMap keys mode :
  ∃ r, evaluatePermission clock (CheckArray keys) context rulesMap mode
       = Fulfilled r
       ∧ rule <$> ruleResults r = keys
       ∧ result <$> ruleResults r = keyGrants context rulesMap <$> keys
       ∧ allowed r = match mode with
                     | ModeAll => forallb (keyGrants context rulesMap) keys
                     | ModeAny => existsb (keyGrants context rulesMap) keys
                     end.
Proof.
  destruct (evaluateKeys_settle keys clock context rulesMap) as (trace & Ht & Hk).
  destruct (evaluateKeys_outcome keys clock context rulesMap trace Ht) as [Hr _].
  eexists. split; [exact (evaluatePermission_array _ _ _ _ mode _ Ht)|].
  simpl. split; [exact Hk|]. split; [exact Hr|].
  unfold every, some.
  destruct mode; [by apply existsb_same_results|by apply forallb_same_results].
Qed.

Lemma keyGrants_fails context rulesMap key :
  ruleFails (resolveStringRule key rulesMap context) context →
  keyGrants context rulesMap key = false.
Proof.
  unfold ruleFails, keyGrants. rewrite evaluateRule_outcome. unfold ruleValue.
  by destruct (callRule (resolveStringRule key rulesMap context) context).
Qed.

Lemma existsb_delete_false {A} (f : A → bool) (xs : list A) i x :
  xs !! i = Some x → f x = false → existsb f xs = existsb f (delete i xs).
Proof.
  revert i. induction xs as [|y ys IH]; intros [|i]; simpl; try done.
  - by intros [= ->] ->.
  - intros Hi Hx. by rewrite (IH i).
Qed.

Lemma forallb_lookup_false {A} (f : A → bool) (xs : list A) i x :
  xs !! i = Some x → f x = false → forallb f xs = false.
Proof.
  revert i. induction xs as [|y ys IH]; intros [|i]; simpl; try done.
  - by intros [= ->] ->.
  - intros Hi Hx. rewrite (IH i) by done. apply andb_false_r.
Qed.

Lemma existsb_Permutation {A} (f : A → bool) (xs ys : list A) :
  xs ≡ₚ ys → existsb f xs = existsb f ys.
Proof.
  induction 1 as [|x xs ys _ IH|x y xs|xs ys zs _ IH1 _ IH2]; simpl;
    [done|by rewrite IH| |congruence].
  by destruct (f x), (f y).
Qed.

Lemma forallb_Permutation {A} (f : A → bool) (xs ys : list A) :
  xs ≡ₚ ys → forallb f xs = forallb f ys.
Proof.
  induction 1 as [|x xs ys _ IH|x y xs|xs ys zs _ IH1 _ IH2]; simpl;
    [done|by rewrite IH| |congruence].
  by destruct (f x), (f y).
Qed.

(** X1. An entry that carries an error never has a true result, whatever the
    shape of the check; and a check is allowed only with an entry of true
    result and no error behind it, or with the empty trace (the empty key
    set under mode "all"). *)
Theorem errored_entry_never_grants clock check context rulesMap mode :
  ∃ r, evaluatePermission clock check context rulesMap mode = Fulfilled r
       ∧ Forall (λ e, is_Some (error e) → result e = false) (ruleResults r)
       ∧ (allowed r = true →
          ruleResults r = []
          ∨ ∃ e, e ∈ ruleResults r ∧ result e = true ∧ error e = None).
Proof.
  assert (Hgrant : ∀ e : RuleEvaluationResult,
    (is_Some (error e) → result e = false) → result e = true → error e = None).
  { intros e He Hr. destruct (error e) eqn:Herr; [|done].
    rewrite He in Hr by eauto. done. }
  destruct check as [f|key|keys|shape].
  - unfold evaluatePermission. rewrite evaluateRule_outcome.
    eexists. split; [reflexivity|]. cbn [ruleResults allowed ro_result ro_error].
    unfold ruleValue.
    split.
    + constructor; [|constructor]. cbn. destruct (f context); by intros [? ?].
    + intros Hr. right. eexists. split; [apply list_elem_of_singleton; reflexivity|].
      cbn in *. split; [exact Hr|]. destruct (f context); done.
  - unfold evaluatePermission. rewrite evaluateRule_outcome.
    eexists. split; [reflexivity|]. cbn [ruleResults allowed ro_result ro_error].
    unfold ruleValue.
    split.
    + constructor; [|constructor]. cbn.
      destruct (callRule (resolveStringRule key rulesMap context) context);
        by intros [? ?].
    + intros Hr. right. eexists. split; [apply list_elem_of_singleton; reflexivity|].
      cbn. split; [exact Hr|].
      destruct (callRule (resolveStringRule key rulesMap context) context); done.
  - destruct (evaluateKeys_settle keys clock context rulesMap) as (trace & Ht & Hk).
    destruct (evaluateKeys_outcome keys clock context rulesMap trace Ht)
      as [_ Hall].
    eexists. split; [exact (evaluatePermission_array _ _ _ _ mode _ Ht)|].
    cbn [ruleResults allowed]. split; [exact Hall|].
    intros Hallow. destruct trace as [|e0 trace]; [by left|]. right.
    destruct mode.
    + apply some_true, Exists_exists in Hallow as (e & He & Hr).
      exists e. split; [done|]. split; [done|].
      apply Hgrant; [|done]. by apply (proj1 (Forall_forall _ _) Hall).
    + apply every_true in Hallow.
      exists e0. split; [rewrite elem_of_cons; by left|].
      apply Forall_cons in Hallow as [Hr _]. split; [done|].
      apply Hgrant; [|done]. by apply Forall_cons in Hall as [? _].
  - eexists. split; [reflexivity|]. cbn. split; [|done].
    by constructor.
Qed.

Lemma errored_entry_never_grants_witness :
  ∃ r, evaluatePermission (λ _, 0) (CheckArray ["admin"; "edit"]) adminContext
         (adminEditRules sampleHost) ModeAny = Fulfilled r
       ∧ ∃ e, e ∈ ruleResults r ∧ result e = true ∧ error e = None.
Proof.
  destruct (errored_entry_never_grants (λ _, 0) (CheckArray ["admin"; "edit"])
              adminContext (adminEditRules sampleHost) ModeAny) as (r & Hr & _ & Hgrant).
  exists r. split; [exact Hr|].
  assert (Hcase : allowed r = true ∧ ruleResults r ≠ []).
  { injection Hr as <-. split; [reflexivity|discriminate]. }
  destruct Hcase as [Ha Hne]. destruct (Hgrant Ha) as [Hnil|He]; [done|exact He].
Defined.

(** X2. A single key is evaluated as the key set that holds only this key,
    under either mode: same decision, same trace. *)
Theorem single_key_as_singleton_key_set clock key context rulesMap mode mode' :
  evaluatePermission clock (CheckString key) context rulesMap mode
  = evaluatePermission clock (CheckArray [key]) context rulesMap mode'.
Proof.
  unfold evaluatePermission. cbn [imap Promise_all]. unfold evaluateKey.
  rewrite evaluateRule_outcome. cbn.
  destruct mode'; unfold some, every; cbn;
    by rewrite ?orb_false_r, ?andb_true_r.
Qed.

(** X3. The order of the keys of a key set does not change the decision:
    two key sets that are permutations of each other are both allowed or
    both denied, under either mode and whatever the timings. *)
Theorem key_order_irrelevant clock clock' context rulesMap keys keys' mode :
  keys ≡ₚ keys' →
  ∃ r r',
    evaluatePermission clock (CheckArray keys) context rulesMap mode
    = Fulfilled r
    ∧ evaluatePermission clock' (CheckArray keys') context rulesMap mode
      = Fulfilled r'
    ∧ allowed r = allowed r'
    ∧ rule <$> ruleResults r ≡ₚ rule <$> ruleResults r'.
Proof.
  intros Hperm.
  destruct (evaluatePermission_array_decision clock context rulesMap keys mode)
    as (r & Hr & Hk & _ & Ha).
  destruct (evaluatePermission_array_decision clock' context rulesMap keys' mode)
    as (r' & Hr' & Hk' & _ & Ha').
  exists r, r'. split; [done|]. split; [done|].
  split; [|by rewrite Hk, Hk'].
  rewrite Ha, Ha'. destruct mode;
    [by apply existsb_Permutation|by apply forallb_Permutation].
Qed.

Lemma key_order_irrelevant_witness :
  ∃ r r',
    evaluatePermission (λ _, 0) (CheckArray ["admin"; "edit"]) adminContext
      (adminEditRules sampleHost) ModeAll = Fulfilled r
    ∧ evaluatePermission (λ _, 5) (CheckArray ["edit"; "admin"]) adminContext
        (adminEditRules sampleHost) ModeAll = Fulfilled r'
    ∧ allowed r = allowed r'.
Proof.
  destruct (key_order_irrelevant (λ _, 0) (λ _, 5) adminContext (adminEditRules sampleHost)
              ["admin"; "edit"] ["edit"; "admin"] ModeAll)
    as (r & r' & Hr & Hr' & Ha & _).
  - apply perm_swap.
  - exists r, r'. done.
Defined.

(** X4. The decision of two key sets put end to end is the conjunction of
    their decisions under mode "all" and their disjunction under mode
    "any"; the trace names the keys of the first, then those of the
    second. *)
Theorem key_set_concatenation clock context rulesMap keys1 keys2 mode :
  ∃ r1 r2 r,
    evaluatePermission clock (CheckArray keys1) context rulesMap mode
    = Fulfilled r1
    ∧ evaluatePermission clock (CheckArray keys2) context rulesMap mode
      = Fulfilled r2
    ∧ evaluatePermission clock (CheckArray (keys1 ++ keys2)) context rulesMap
        mode = Fulfilled r
    ∧ allowed r = match mode with
                  | ModeAll => allowed r1 && allowed r2
                  | ModeAny => allowed r1 || allowed r2
                  end
    ∧ rule <$> ruleResults r
      = ((rule <$> ruleResults r1) ++ (rule <$> ruleResults r2))%list.
Proof.
  destruct (evaluatePermission_array_decision clock context rulesMap keys1 mode)
    as (r1 & Hr1 & Hk1 & _ & Ha1).
  destruct (evaluatePermission_array_decision clock context rulesMap keys2 mode)
    as (r2 & Hr2 & Hk2 & _ & Ha2).
  destruct (evaluatePermission_array_decision clock context rulesMap
              (keys1 ++ keys2) mode) as (r & Hr & Hk & _ & Ha).
  exists r1, r2, r. do 3 (split; [done|]).
  split; [|by rewrite Hk, Hk1, Hk2].
  rewrite Ha, Ha1, Ha2. destruct mode; [apply existsb_app|apply forallb_app].
Qed.

(** X5. A rule that throws, or rejects with, an Error instance counts
    as a plain denial and stops nothing: with such a rule behind one key
    of a key set, the set is denied under mode "all", the key's entry has
    a false result and the message of the Error as its error, and under
    mode "any" the decision is the one of the set without that key. *)
Theorem failing_rule_isolated clock clock' context rulesMap keys i key m :
  keys !! i = Some key →
  ruleFailsWithError (resolveStringRule key rulesMap context) context m →
  ∃ rAll rAny rRest e,
    evaluatePermission clock (CheckArray keys) context rulesMap ModeAll
    = Fulfilled rAll
    ∧ allowed rAll = false
    ∧ evaluatePermission clock (CheckArray keys) context rulesMap ModeAny
      = Fulfilled rAny
    ∧ ruleResults rAny !! i = Some e
    ∧ rule e = key ∧ result e = false ∧ error e = Some m
    ∧ evaluatePermission clock' (CheckArray (delete i keys)) context rulesMap
        ModeAny = Fulfilled rRest
    ∧ allowed rAny = allowed rRest.
Proof.
  intros Hi Hfail.
  assert (Hfails : ruleFails (resolveStringRule key rulesMap context) context).
  { unfold ruleFails. by destruct Hfail as [-> | ->]. }
  pose proof (keyGrants_fails _ _ _ Hfails) as Hdeny.
  destruct (evaluatePermission_array_decision clock context rulesMap keys ModeAll)
    as (rAll & HrAll & _ & _ & HaAll).
  destruct (evaluatePermission_array_decision clock' context rulesMap
              (delete i keys) ModeAny) as (rRest & HrRest & _ & _ & HaRest).
  destruct (evaluateKeys_settle keys clock context rulesMap) as (trace & Ht & Hk).
  pose proof (evaluatePermission_array _ _ _ _ ModeAny _ Ht) as HrAny.
  destruct (evaluateKeys_outcome keys clock context rulesMap trace Ht)
    as [Hres _].
  assert (He : ∃ e, trace !! i = Some e) .
  { apply lookup_lt_is_Some. rewrite <- (length_fmap rule), Hk.
    by apply lookup_lt_is_Some_1; eauto. }
  destruct He as [e He].
  assert (Hrule : rule e = key).
  { apply (f_equal (λ l, l !! i)) in Hk. rewrite list_lookup_fmap, He, Hi in Hk.
    by injection Hk. }
  assert (Hresult : result e = false).
  { apply (f_equal (λ l, l !! i)) in Hres.
    rewrite !list_lookup_fmap, He, Hi in Hres. simpl in Hres.
    injection Hres as ->. exact Hdeny. }
  assert (Herror : error e = Some m).
  { assert (Hpos : imap (evaluateKey clock context rulesMap) keys !! i
                   = Some (Fulfilled e)).
    { by rewrite Ht, list_lookup_fmap, He. }
    rewrite list_lookup_imap, Hi in Hpos. simpl in Hpos.
    injection Hpos as Hpos. unfold evaluateKey in Hpos.
    rewrite evaluateRule_outcome in Hpos. cbn in Hpos.
    injection Hpos as <-. cbn. by destruct Hfail as [-> | ->]. }
  exists rAll, {| allowed := some trace; ruleResults := trace |}, rRest, e.
  split; [done|].
  split; [rewrite HaAll; by eapply forallb_lookup_false|].
  split; [done|]. cbn [ruleResults allowed].
  do 4 (split; [done|]). split; [done|].
  rewrite HaRest. unfold some.
  rewrite (existsb_same_results result (keyGrants context rulesMap) trace keys)
    by done.
  by eapply existsb_delete_false.
Qed.

Lemma failing_rule_isolated_witness :
  ∃ rAll rAny,
    evaluatePermission (λ _, 0) (CheckArray ["admin"; "boom"]) adminContext
      (objectLiteral sampleHost
         (<["boom" := throwsError]> (<["admin" := grants]> ∅))) ModeAll
    = Fulfilled rAll
    ∧ allowed rAll = false
    ∧ evaluatePermission (λ _, 0) (CheckArray ["admin"; "boom"]) adminContext
        (objectLiteral sampleHost
           (<["boom" := throwsError]> (<["admin" := grants]> ∅))) ModeAny
      = Fulfilled rAny
    ∧ allowed rAny = true.
Proof.
  destruct (failing_rule_isolated (λ _, 0) (λ _, 0) adminContext
              (objectLiteral sampleHost
                 (<["boom" := throwsError]> (<["admin" := grants]> ∅)))
              ["admin"; "boom"] 1 "boom" "boom")
    as (rAll & rAny & rRest & e & HrAll & HaAll & HrAny & _ & _ & _ & _
        & HrRest & Ha).
  - reflexivity.
  - left. reflexivity.
  - exists rAll, rAny. do 3 (split; [done|]).
    rewrite Ha. injection HrRest as <-. reflexivity.
Defined.

(** X6. A key set that is not empty and is allowed under mode "all" is
    allowed under mode "any". *)
Theorem all_implies_any clock clock' context rulesMap keys rAll :
  keys ≠ [] →
  evaluatePermission clock (CheckArray keys) context rulesMap ModeAll
  = Fulfilled rAll →
  allowed rAll = true →
  ∃ rAny,
    evaluatePermission clock' (CheckArray keys) context rulesMap ModeAny
    = Fulfilled rAny
    ∧ allowed rAny = true.
Proof.
  intros Hne HrAll Hallow.
  destruct (evaluatePermission_array_decision clock context rulesMap keys ModeAll)
    as (r & Hr & _ & _ & Ha).
  rewrite HrAll in Hr. injection Hr as <-. rewrite Hallow in Ha.
  destruct (evaluatePermission_array_decision clock' context rulesMap keys ModeAny)
    as (rAny & HrAny & _ & _ & HaAny).
  exists rAny. split; [done|]. rewrite HaAny.
  destruct keys as [|k keys]; [done|]. simpl in *.
  symmetry in Ha. apply andb_true_iff in Ha as [-> _]. done.
Qed.

Lemma all_implies_any_witness :
  ∃ rAny,
    evaluatePermission (λ _, 2) (CheckArray ["admin"]) adminContext
      (adminEditRules sampleHost) ModeAny = Fulfilled rAny
    ∧ allowed rAny = true.
Proof.
  apply (all_implies_any (λ _, 1) (λ _, 2) adminContext (adminEditRules sampleHost) ["admin"]
           {| allowed := true;
              ruleResults := [ {| rule := "admin"; result := true;
                                  duration := 1; error := None |} ] |});
    [discriminate|reflexivity|reflexivity].
Defined.

(** X7. The trace has exactly one entry for an inline rule, for a single key
    and for an unrecognised check, and one entry per key for a key set;
    it is empty for the empty key set only. *)
Theorem trace_length clock check context rulesMap mode :
  ∃ r, evaluatePermission clock check context rulesMap mode = Fulfilled r
       ∧ length (ruleResults r)
         = match check with
           | CheckArray keys => length keys
           | _ => 1%nat
           end
       ∧ (ruleResults r = [] ↔ check = CheckArray []).
Proof.
  destruct check as [f|key|keys|shape].
  - unfold evaluatePermission. rewrite evaluateRule_outcome.
    eexists. split; [reflexivity|]. cbn. done.
  - unfold evaluatePermission. rewrite evaluateRule_outcome.
    eexists. split; [reflexivity|]. cbn. done.
  - destruct (evaluatePermission_array_decision clock context rulesMap keys mode)
      as (r & Hr & Hk & _).
    exists r. split; [done|].
    split; [by rewrite <- Hk, length_fmap|].
    split.
    + intros Hnil. rewrite Hnil in Hk. by rewrite <- Hk.
    + intros [= ->]. by destruct (ruleResults r).
  - eexists. split; [reflexivity|]. cbn. done.
Qed.

End RuleEngineDecisions.

(* ===================================================================== *)
(** * Further properties of the dev-tools store *)
(* ===================================================================== *)

Section DevStoreObservers.
Import RuleEngine DevStore Statements Observations.

Implicit Types (w : World) (s : DevToolsState) (h : Heap) (l : Listener)
  (ops : list Op).

Lemma callsTo_round l s (ls : list Listener) :
  NoDup ls →
  snd <$> filter (λ p, p.1 = l) ((λ l', (l', s)) <$> ls)
  = if bool_decide (l ∈ ls) then [s] else [].
Proof.
  induction 1 as [|x xs Hx Hnd IH]; [done|].
  rewrite fmap_cons, filter_cons. cbn [fst].
  destruct (decide (x = l)) as [->|Hne].
  - rewrite fmap_cons, IH. cbn [snd].
    rewrite (bool_decide_eq_false_2 (l ∈ xs)) by done.
    rewrite bool_decide_eq_true_2; [done|]. rewrite elem_of_cons; by left.
  - rewrite IH. case_bool_decide as Hin.
    + rewrite bool_decide_eq_true_2; [done|]. rewrite elem_of_cons; by right.
    + rewrite bool_decide_eq_false_2; [done|].
      rewrite elem_of_cons. intros [->|?]; done.
Qed.

Lemma callsTo_run o w l :
  NoDup (listeners w) →
  callsTo l (exec (run o) w)
  = (callsTo l w
     ++ if bool_decide (l ∈ listeners w) then [state (exec (run o) w)] else [])%list.
Proof.
  intros Hnd. unfold callsTo.
  destruct (run_delivers_once o w) as [_ ->].
  rewrite filter_app, fmap_app. by rewrite callsTo_round.
Qed.

Lemma runAll_listeners ops : ∀ w, listeners (runAll ops w) = listeners w.
Proof.
  induction ops as [|o ops IH]; intros w; [done|].
  rewrite runAll_cons, IH. by destruct (run_delivers_once o w).
Qed.

(** X8. Each method call reaches each subscribed listener exactly once: after
    any sequence of calls a listener that was subscribed all along has
    been called once more per call of the sequence, a listener that is
    not subscribed has not been called, and the last state object handed
    out is the state as the last call left it. *)
Theorem listener_called_once_per_method l ops w :
  NoDup (listeners w) →
  listeners (runAll ops w) = listeners w
  ∧ length (callsTo l (runAll ops w))
    = (length (callsTo l w)
       + if bool_decide (l ∈ listeners w) then length ops else 0)%nat
  ∧ (l ∈ listeners w → ops ≠ [] →
     last (callsTo l (runAll ops w)) = Some (state (runAll ops w))).
Proof.
  intros Hnd. split; [apply runAll_listeners|]. split.
  - revert w Hnd. induction ops as [|o ops IH]; intros w Hnd.
    + simpl. case_bool_decide; lia.
    + rewrite runAll_cons, IH.
      * destruct (run_delivers_once o w) as [-> _].
        rewrite callsTo_run by done. rewrite length_app.
        case_bool_decide; simpl; lia.
      * by destruct (run_delivers_once o w) as [-> _].
  - intros Hin Hne.
    destruct (exists_last Hne) as (ops' & o & ->).
    rewrite runAll_snoc, callsTo_run.
    + rewrite runAll_listeners, bool_decide_eq_true_2 by done.
      apply last_snoc.
    + by rewrite runAll_listeners.
Qed.

Lemma listener_called_once_per_method_witness :
  length (callsTo 4%nat
            (runAll [OpTogglePanel; OpToggleRole "x" []; OpResetOverrides]
               (exec (subscribe 4%nat) (newDevStore ∅)))) = 3%nat.
Proof.
  destruct (listener_called_once_per_method 4%nat
              [OpTogglePanel; OpToggleRole "x" []; OpResetOverrides]
              (exec (subscribe 4%nat) (newDevStore ∅))) as (_ & Hlen & _).
  - apply subscribe_NoDup. constructor.
  - rewrite Hlen. reflexivity.
Defined.

Lemma exec_subscribe l w :
  exec (subscribe l) w
  = {| heap := heap w; state := state w;
       listeners := if bool_decide (l ∈ listeners w) then listeners w
                    else (listeners w ++ [l])%list;
       delivered := delivered w |}.
Proof.
  unfold subscribe, exec, mbind, Store_bind, mret, Store_ret, getWorld,
    putListeners.
  destruct w as [h s ls d]. simpl. by case_bool_decide.
Qed.

Lemma exec_unsubscribe l w :
  exec (unsubscribe l) w
  = {| heap := heap w; state := state w;
       listeners := filter (λ l', l' ≠ l) (listeners w);
       delivered := delivered w |}.
Proof. reflexivity. Qed.

(** X9. Subscribing the same listener again changes nothing; the function
    [subscribe] returns takes the listener out of the set, keeps the
    others, and no later method call reaches the listener. *)
Theorem unsubscribe_stops_calls l ops w :
  NoDup (listeners w) →
  exec (subscribe l) (exec (subscribe l) w) = exec (subscribe l) w
  ∧ l ∈ listeners (exec (subscribe l) w)
  ∧ (l ∉ listeners (exec (unsubscribe l) w))
  ∧ (∀ l', l' ≠ l →
           (l' ∈ listeners (exec (unsubscribe l) w) ↔ l' ∈ listeners w))
  ∧ callsTo l (runAll ops (exec (unsubscribe l) w)) = callsTo l w.
Proof.
  intros Hnd. rewrite !exec_subscribe, exec_unsubscribe. cbn [listeners heap state delivered].
  split.
  { destruct (decide (l ∈ listeners w)) as [Hin|Hin].
    - by rewrite !(bool_decide_eq_true_2 (l ∈ listeners w)) by done.
    - rewrite !(bool_decide_eq_false_2 (l ∈ listeners w)) by done.
      rewrite bool_decide_eq_true_2; [done|].
      rewrite elem_of_app, list_elem_of_singleton. by right. }
  split.
  { case_bool_decide; [done|].
    rewrite elem_of_app, list_elem_of_singleton. by right. }
  split.
  { rewrite list_elem_of_filter. by intros [? _]. }
  split.
  { intros l' Hne. rewrite list_elem_of_filter. split; [by intros [_ ?]|done]. }
  set (w' := {| heap := heap w; state := state w;
                listeners := filter (λ l', l' ≠ l) (listeners w);
                delivered := delivered w |}).
  assert (Hnd' : NoDup (listeners w')) by by apply NoDup_filter.
  assert (Hnot : l ∉ listeners w').
  { simpl. rewrite list_elem_of_filter. by intros [? _]. }
  change (callsTo l w) with (callsTo l w').
  clearbody w'. clear w Hnd.
  revert w' Hnd' Hnot. induction ops as [|o ops IH]; intros w Hnd Hnot; [done|].
  rewrite runAll_cons, IH.
  - rewrite callsTo_run by done. rewrite bool_decide_eq_false_2 by done.
    apply app_nil_r.
  - by destruct (run_delivers_once o w) as [-> _].
  - by destruct (run_delivers_once o w) as [-> _].
Qed.

Lemma unsubscribe_stops_calls_witness :
  callsTo 4%nat
    (runAll [OpTogglePanel; OpResetOverrides]
       (exec (unsubscribe 4%nat) (exec (subscribe 4%nat) (newDevStore ∅))))
  = [].
Proof.
  destruct (unsubscribe_stops_calls 4%nat [OpTogglePanel; OpResetOverrides]
              (exec (subscribe 4%nat) (newDevStore ∅))) as (_ & _ & _ & _ & H).
  - apply subscribe_NoDup. constructor.
  - rewrite H. reflexivity.
Defined.

End DevStoreObservers.

Section DevStoreToggles.
Import RuleEngine DevStore Statements Observations.

Implicit Types (w : World) (s : DevToolsState) (h : Heap) (l : loc)
  (items base : list string) (key : string).

Lemma removeFirst_snoc key items :
  key ∉ items → removeFirst key (items ++ [key]) = items.
Proof.
  induction items as [|x xs IH]; simpl.
  - intros _. by rewrite String.eqb_refl.
  - rewrite elem_of_cons. intros Hnot.
    destruct (String.eqb x key) eqn:Heq.
    + apply String.eqb_eq in Heq as ->. destruct Hnot. by left.
    + rewrite IH; [done|]. intros ?. apply Hnot. by right.
Qed.

Lemma flipFirst_twice key items :
  key ∉ items → flipFirst key (flipFirst key items) = items.
Proof.
  intros Hnot. unfold flipFirst at 2. rewrite bool_decide_eq_false_2 by done.
  unfold flipFirst. rewrite bool_decide_eq_true_2.
  - by apply removeFirst_snoc.
  - rewrite elem_of_app, list_elem_of_singleton. by right.
Qed.

(** X10. Toggling a role that the working items do not hold, twice in a row
    with the same base, gives the working items back: the override then
    reads as the items the first toggle started from (those of the former
    override, or of the base when there was none), and is absent only
    when these are empty. *)
Theorem toggleRole_round_trip role base w :
  role ∉ workingItems (heap w) (overrideRoles (state w)) base →
  v_overrideRoles
    (view (heap (exec (toggleRole role base) (exec (toggleRole role base) w)))
          (state (exec (toggleRole role base) (exec (toggleRole role base) w))))
  = (if bool_decide (workingItems (heap w) (overrideRoles (state w)) base = [])
     then None
     else Some (workingItems (heap w) (overrideRoles (state w)) base))
  ∧ v_overrideRoles
      (view (heap (exec (toggleRole role base) w))
            (state (exec (toggleRole role base) w)))
    = Some (workingItems (heap w) (overrideRoles (state w)) base ++ [role])%list.
Proof.
  intros Hnot.
  set (working := workingItems (heap w) (overrideRoles (state w)) base) in *.
  destruct (toggleRole_result role base w) as (Hv1 & Ho1 & Hh1).
  fold working in Hv1, Ho1, Hh1.
  set (w1 := exec (toggleRole role base) w) in *.
  assert (Hfirst : flipFirst role working = (working ++ [role])%list).
  { unfold flipFirst. by rewrite bool_decide_eq_false_2. }
  assert (Hne : flipFirst role working ≠ []).
  { rewrite Hfirst. by destruct working. }
  set (l := (workingArray (heap w) (overrideRoles (state w)) base).1) in *.
  assert (Hkept : overrideRoles (state w1) = Some l).
  { rewrite Ho1. unfold keptOverride.
    destruct (flipFirst role working); [done|reflexivity]. }
  destruct (toggleRole_result role base w1) as (Hv2 & _ & _).
  rewrite Hkept in Hv2. cbn [workingItems] in Hv2.
  rewrite Hh1, readArray_insert in Hv2.
  rewrite flipFirst_twice in Hv2 by done.
  split; [exact Hv2|].
  rewrite Hv1, bool_decide_eq_false_2 by done. by rewrite Hfirst.
Qed.

Lemma toggleRole_round_trip_witness :
  v_overrideRoles
    (view (heap (exec (toggleRole "x" ["a"]) (exec (toggleRole "x" ["a"])
                   (newDevStore ∅))))
          (state (exec (toggleRole "x" ["a"]) (exec (toggleRole "x" ["a"])
                    (newDevStore ∅)))))
  = Some ["a"].
Proof.
  destruct (toggleRole_round_trip "x" ["a"] (newDevStore ∅)) as [H _].
  - apply (bool_decide_unpack _). by vm_compute.
  - exact H.
Defined.

Lemma assignFlag_twice (entries : gmap string bool) flag :
  assignFlag (assignFlag entries flag (notFlag entries flag)) flag
    (notFlag (assignFlag entries flag (notFlag entries flag)) flag)
  = if bool_decide (flag = "__proto__" ∧ entries !! flag = None) then entries
    else <[flag := readFlag entries flag]> entries.
Proof.
  unfold assignFlag at 2 3. case_bool_decide as Hsetter.
  - unfold assignFlag. by rewrite bool_decide_eq_true_2.
  - unfold assignFlag. rewrite bool_decide_eq_false_2.
    + rewrite insert_insert_eq. f_equal.
      unfold notFlag at 1. unfold readFlag at 1. rewrite lookup_insert_eq.
      unfold notFlag. apply negb_involutive.
    + intros [_ Hnone]. by rewrite lookup_insert_eq in Hnone.
Qed.

(** X11. Toggling a flag twice in a row leaves the flag override present.
    A flag that has an entry is back at its value, with every entry as
    it was. A flag without an entry ends up with the entry false when
    its name is not one of [Object.prototype], with the entry true when
    it is one (the first toggle negates the inherited value), and with
    no entry at all under "__proto__". *)
Theorem toggleFlag_twice flag (base : gmap string bool) w :
  ∃ l,
    overrideFlags (state (exec (toggleFlag flag base)
                            (exec (toggleFlag flag base) w))) = Some l
    ∧ readFlags (heap (exec (toggleFlag flag base)
                         (exec (toggleFlag flag base) w))) l
      = (if bool_decide
              (flag = "__proto__"
               ∧ workingEntries (heap w) (overrideFlags (state w)) base !! flag
                 = None)
         then workingEntries (heap w) (overrideFlags (state w)) base
         else <[flag := readFlag
                          (workingEntries (heap w) (overrideFlags (state w))
                             base) flag]>
                (workingEntries (heap w) (overrideFlags (state w)) base))
    ∧ (is_Some (workingEntries (heap w) (overrideFlags (state w)) base !! flag) →
       readFlags (heap (exec (toggleFlag flag base)
                          (exec (toggleFlag flag base) w))) l
       = workingEntries (heap w) (overrideFlags (state w)) base)
    ∧ (workingEntries (heap w) (overrideFlags (state w)) base !! flag = None →
       flag ∉ objectPrototypeNames →
       readFlags (heap (exec (toggleFlag flag base)
                          (exec (toggleFlag flag base) w))) l
       = <[flag := false]>
           (workingEntries (heap w) (overrideFlags (state w)) base))
    ∧ (workingEntries (heap w) (overrideFlags (state w)) base !! flag = None →
       flag ∈ objectPrototypeNames → flag ≠ "__proto__" →
       readFlags (heap (exec (toggleFlag flag base)
                          (exec (toggleFlag flag base) w))) l
       = <[flag := true]>
           (workingEntries (heap w) (overrideFlags (state w)) base)).
Proof.
  pose proof (exec_toggleFlag flag base w) as H1.
  destruct (workingFlags (heap w) _ _) as [l h0] eqn:Hw.
  assert (Hentries : readFlags h0 l
                     = workingEntries (heap w) (overrideFlags (state w)) base).
  { unfold workingFlags, workingEntries in *.
    destruct (overrideFlags (state w)).
    - by injection Hw as <- <-.
    - injection Hw as <- <-. by rewrite readFlags_insert. }
  set (entries := workingEntries (heap w) (overrideFlags (state w)) base) in *.
  cbv zeta in H1. rewrite Hentries in H1.
  set (w1 := exec (toggleFlag flag base) w) in *.
  assert (Hs1 : overrideFlags (state w1) = Some l) by by rewrite H1.
  assert (Hh1 : heap w1
                = <[l := HFlags (assignFlag entries flag
                                   (notFlag entries flag))]> h0)
    by by rewrite H1.
  pose proof (exec_toggleFlag flag base w1) as H2.
  rewrite Hs1 in H2. cbn [workingFlags] in H2. cbv zeta in H2.
  rewrite Hh1 in H2 at 1 2 3. rewrite !readFlags_insert in H2.
  assert (Hres : readFlags (heap (exec (toggleFlag flag base) w1)) l
                 = if bool_decide (flag = "__proto__" ∧ entries !! flag = None)
                   then entries
                   else <[flag := readFlag entries flag]> entries).
  { rewrite H2. cbn [notified heap]. rewrite readFlags_insert.
    apply assignFlag_twice. }
  exists l. split; [by rewrite H2|]. split; [exact Hres|].
  split; [|split].
  - intros [b Hb]. rewrite Hres. rewrite bool_decide_eq_false_2.
    + unfold readFlag. rewrite Hb. by apply insert_id.
    + intros [_ Hnone]. by rewrite Hb in Hnone.
  - intros Hnone Hname. rewrite Hres. rewrite bool_decide_eq_false_2.
    + unfold readFlag. rewrite Hnone. by rewrite bool_decide_eq_false_2.
    + intros [-> _]. apply Hname. apply (bool_decide_unpack _). by vm_compute.
  - intros Hnone Hname Hproto. rewrite Hres. rewrite bool_decide_eq_false_2.
    + unfold readFlag. rewrite Hnone. by rewrite bool_decide_eq_true_2.
    + by intros [? _].
Qed.

Lemma toggleFlag_twice_witness :
  ∃ l,
    readFlags (heap (exec (toggleFlag "beta" {["beta" := true]})
                       (exec (toggleFlag "beta" {["beta" := true]})
                          (newDevStore ∅)))) l
    = {["beta" := true]}.
Proof.
  destruct (toggleFlag_twice "beta" {["beta" := true]} (newDevStore ∅))
    as (l & _ & _ & H & _).
  exists l. apply H. exists true. reflexivity.
Defined.

(** X12. Toggling a role leaves the permission override alone when the two
    overrides are different arrays: same reference, same items. When the
    store was given one array for both, the role toggle rewrites the
    items the permission override reads. *)
Theorem toggleRole_and_permission_override role base w lp :
  overridePermissions (state w) = Some lp →
  lp ∈ dom (heap w) →
  overridePermissions (state (exec (toggleRole role base) w)) = Some lp
  ∧ (overrideRoles (state w) ≠ Some lp →
     readArray (heap (exec (toggleRole role base) w)) lp
     = readArray (heap w) lp)
  ∧ (overrideRoles (state w) = Some lp →
     readArray (heap (exec (toggleRole role base) w)) lp
     = flipFirst role (readArray (heap w) lp)).
Proof.
  intros Hp Hdom.
  pose proof (exec_toggleRole role base w) as H.
  destruct (workingArray (heap w) _ _) as [l h0] eqn:Hw.
  rewrite H. cbn [notified state heap overridePermissions].
  split; [exact Hp|]. unfold workingArray in Hw. split.
  - intros Hne. destruct (overrideRoles (state w)) as [lr|].
    + injection Hw as <- <-. rewrite readArray_insert_ne; [done|].
      intros ->. by apply Hne.
    + injection Hw as <- <-.
      assert (fresh (dom (heap w)) ≠ lp).
      { intros <-. by apply (is_fresh (dom (heap w))). }
      by rewrite !readArray_insert_ne.
  - intros Heq. rewrite Heq in Hw. injection Hw as <- <-.
    by rewrite readArray_insert, toggled_flipFirst.
Qed.

Lemma toggleRole_and_permission_override_witness :
  readArray
    (heap (exec (toggleRole "x" [])
             (exec (togglePermission "read" []) (newDevStore ∅)))) 0%nat
  = ["read"].
Proof.
  destruct (toggleRole_and_permission_override "x" []
              (exec (togglePermission "read" []) (newDevStore ∅)) 0%nat)
    as (_ & Hframe & _).
  - reflexivity.
  - apply (bool_decide_unpack _). by vm_compute.
  - rewrite Hframe; [reflexivity|discriminate].
Defined.

End DevStoreToggles.

(* ===================================================================== *)
(** * Properties of the provider, the root and the gate *)
(* ===================================================================== *)

Section RootFacts.
Import RuleEngine DevStore Statements Provider Root.

Implicit Types (w : World) (props : PermissionsProviderProps).

(** X13. The roles in effect after a toggle are the toggled items, unless
    these are empty: the override is then absent and the roles in effect
    are those of the props again. So when a single role is in effect
    through the props and no override is set, toggling that role off
    leaves it in effect. *)
Theorem toggle_to_empty_falls_back role base props w :
  effectiveRoles (heap (exec (toggleRole role base) w))
    (state (exec (toggleRole role base) w)) props
  = (if bool_decide
          (flipFirst role (workingItems (heap w) (overrideRoles (state w)) base)
           = [])
     then default [] (p_roles props)
     else flipFirst role (workingItems (heap w) (overrideRoles (state w)) base))
  ∧ (overrideRoles (state w) = None → p_roles props = Some [role] →
     base = effectiveRoles (heap w) (state w) props →
     overrideRoles (state (exec (toggleRole role base) w)) = None
     ∧ effectiveRoles (heap (exec (toggleRole role base) w))
         (state (exec (toggleRole role base) w)) props = [role]).
Proof.
  destruct (toggleRole_result role base w) as (Hv & Ho & Hh).
  set (w' := exec (toggleRole role base) w) in *.
  set (result := flipFirst role
                   (workingItems (heap w) (overrideRoles (state w)) base)) in *.
  assert (Heff : effectiveRoles (heap w') (state w') props
                 = if bool_decide (result = [])
                   then default [] (p_roles props) else result).
  { unfold effectiveRoles. unfold view in Hv. cbn [v_overrideRoles] in Hv.
    destruct (overrideRoles (state w')) as [l|]; simpl in Hv.
    - case_bool_decide; [done|]. by injection Hv.
    - by case_bool_decide. }
  split; [exact Heff|].
  intros Hnone Hprops ->. 
  assert (Hres : result = []).
  { unfold result, effectiveRoles. rewrite Hnone, Hprops. simpl.
    unfold flipFirst. rewrite bool_decide_eq_true_2.
    - simpl. by rewrite String.eqb_refl.
    - rewrite list_elem_of_singleton. done. }
  split.
  - rewrite Ho, Hres. reflexivity.
  - rewrite Heff, Hres, Hprops. reflexivity.
Qed.

Lemma toggle_to_empty_falls_back_witness :
  effectiveRoles
    (heap (exec (toggleRole "admin" ["admin"]) (newDevStore ∅)))
    (state (exec (toggleRole "admin" ["admin"]) (newDevStore ∅)))
    {| p_user := VNull; p_roles := Some ["admin"]; p_permissions := None;
       p_rules := None; p_flags := None; p_enableDevTools := None;
       p_onEvaluationRegister := None |}
  = ["admin"].
Proof.
  destruct (toggle_to_empty_falls_back "admin" ["admin"]
              {| p_user := VNull; p_roles := Some ["admin"];
                 p_permissions := None; p_rules := None; p_flags := None;
                 p_enableDevTools := None; p_onEvaluationRegister := None |}
              (newDevStore ∅)) as (_ & H).
  destruct H as [_ H]; [reflexivity|reflexivity|reflexivity|exact H].
Defined.

Lemma store_unit (m : Store unit) w : m w = (tt, exec m w).
Proof. unfold exec. by destruct (m w) as [[] ?]. Qed.

(** X14. With the dev tools enabled, an evaluation through the root's
    provider resolves to the decision of the rule engine on the context
    built from the roles, permissions and flags in effect, and records
    it: the newest entry of the history carries that decision, the trace
    of the engine, the check (the word "inline" for a rule) and the mode
    (mode "any" when none is given); the overrides are untouched, and
    every listener is called once. *)
Theorem root_evaluation_recorded production rd props check resource mode w :
  devToolsEnabled props production = true →
  ∃ r e,
    RuleEngine.evaluatePermission (rd_clock rd) (toCheck check)
      (createPermissionContext (p_user props) resource
         (effectiveRoles (heap w) (state w) props)
         (effectivePermissions (heap w) (state w) props)
         (effectiveFlags (heap w) (state w) props))
      (default (objectLiteral (rd_host rd) ∅) (p_rules props)) (default ModeAny mode) = Fulfilled r
    ∧ (Provider.evaluatePermission production rd
         (providerProps (heap w) (state w) props) check resource mode w).1
      = Fulfilled (allowed r)
    ∧ (Provider.evaluatePermission production rd
         (providerProps (heap w) (state w) props) check resource mode w).2
      = exec (addEvaluation e) w
    ∧ ev_allowed e = allowed r
    ∧ ev_ruleResults e = ruleResults r
    ∧ DevStore.check e = recordedCheck check
    ∧ DevStore.mode e = Some (default ModeAny mode)
    ∧ evaluations (state (exec (addEvaluation e) w)) !! 0%nat = Some e
    ∧ overrideRoles (state (exec (addEvaluation e) w)) = overrideRoles (state w)
    ∧ overridePermissions (state (exec (addEvaluation e) w))
      = overridePermissions (state w)
    ∧ overrideFlags (state (exec (addEvaluation e) w)) = overrideFlags (state w)
    ∧ delivered (exec (addEvaluation e) w)
      = (delivered w
         ++ ((λ l, (l, state (exec (addEvaluation e) w))) <$> listeners w))%list.
Proof.
  intros Henabled.
  set (P := providerProps (heap w) (state w) props).
  destruct (evaluatePermission_settles (rd_clock rd) (toCheck check)
              (createPermissionContext (p_user P) resource
                 (default [] (p_roles P)) (default [] (p_permissions P))
                 (default ∅ (p_flags P)))
              (default (objectLiteral (rd_host rd) ∅) (p_rules P)) (default ModeAny mode)) as [r Hr].
  exists r. eexists. split; [exact Hr|].
  unfold Provider.evaluatePermission. rewrite Hr.
  replace (devToolsEnabled P production) with true
    by (symmetry; exact Henabled).
  change (p_onEvaluationRegister P) with (Some addEvaluation).
  unfold mbind, Store_bind, mret, Store_ret.
  match goal with
  | |- context [addEvaluation ?e w] => set (ev := e)
  end.
  rewrite (store_unit (addEvaluation ev) w). cbn [fst snd].
  split; [reflexivity|]. split; [reflexivity|].
  do 4 (split; [reflexivity|]).
  rewrite exec_addEvaluation. cbn [notified state evaluations overrideRoles
    overridePermissions overrideFlags delivered].
  repeat split; reflexivity.
Qed.

Lemma root_evaluation_recorded_witness :
  ∃ e,
    (Provider.evaluatePermission false
       {| rd_host := sampleHost; rd_clock := λ _, 0; rd_idNow := 17; rd_idRandom := "0.5";
          rd_timestamp := 17 |}
       (providerProps ∅ initialState
          {| p_user := VNull; p_roles := Some ["admin"]; p_permissions := None;
             p_rules := None; p_flags := None; p_enableDevTools := None;
             p_onEvaluationRegister := None |})
       (ByKey "admin") None None (newDevStore ∅)).2
    = exec (addEvaluation e) (newDevStore ∅)
    ∧ ev_allowed e = true.
Proof.
  destruct (root_evaluation_recorded false
              {| rd_host := sampleHost; rd_clock := λ _, 0; rd_idNow := 17; rd_idRandom := "0.5";
                 rd_timestamp := 17 |}
              {| p_user := VNull; p_roles := Some ["admin"];
                 p_permissions := None; p_rules := None; p_flags := None;
                 p_enableDevTools := None; p_onEvaluationRegister := None |}
              (ByKey "admin") None None (newDevStore ∅))
    as (r & e & Hr & _ & Hw & Ha & _).
  - reflexivity.
  - exists e. split; [exact Hw|]. rewrite Ha. injection Hr as <-. reflexivity.
Defined.

(** X15. Without the dev tools (disabled by the prop, or the prop left out in
    a production build) or without a register callback, an evaluation
    through the provider resolves to the decision of the rule engine and
    leaves the store as it was: nothing is recorded, no listener is
    called. *)
Theorem provider_silent_without_dev_tools production rd props check resource
    mode w :
  devToolsEnabled props production = false
  ∨ p_onEvaluationRegister props = None →
  ∃ r,
    RuleEngine.evaluatePermission (rd_clock rd) (toCheck check)
      (createPermissionContext (p_user props) resource
         (default [] (p_roles props)) (default [] (p_permissions props))
         (default ∅ (p_flags props)))
      (default (objectLiteral (rd_host rd) ∅) (p_rules props)) (default ModeAny mode) = Fulfilled r
    ∧ Provider.evaluatePermission production rd props check resource mode w
      = (Fulfilled (allowed r), w)
    ∧ (p_enableDevTools props = None → devToolsEnabled props true = false).
Proof.
  intros Hoff.
  destruct (evaluatePermission_settles (rd_clock rd) (toCheck check)
              (createPermissionContext (p_user props) resource
                 (default [] (p_roles props)) (default [] (p_permissions props))
                 (default ∅ (p_flags props)))
              (default (objectLiteral (rd_host rd) ∅) (p_rules props)) (default ModeAny mode)) as [r Hr].
  exists r. split; [exact Hr|]. split.
  - unfold Provider.evaluatePermission. rewrite Hr.
    destruct Hoff as [-> | ->]; [done|].
    by destruct (devToolsEnabled props production).
  - intros Hnone. unfold devToolsEnabled. by rewrite Hnone.
Qed.

Lemma provider_silent_without_dev_tools_witness :
  Provider.evaluatePermission true
    {| rd_host := sampleHost; rd_clock := λ _, 0; rd_idNow := 17; rd_idRandom := "0.5";
       rd_timestamp := 17 |}
    {| p_user := VNull; p_roles := Some ["admin"]; p_permissions := None;
       p_rules := None; p_flags := None; p_enableDevTools := None;
       p_onEvaluationRegister := Some addEvaluation |}
    (ByKey "admin") None None (newDevStore ∅)
  = (Fulfilled true, newDevStore ∅).
Proof.
  destruct (provider_silent_without_dev_tools true
              {| rd_host := sampleHost; rd_clock := λ _, 0; rd_idNow := 17; rd_idRandom := "0.5";
                 rd_timestamp := 17 |}
              {| p_user := VNull; p_roles := Some ["admin"];
                 p_permissions := None; p_rules := None; p_flags := None;
                 p_enableDevTools := None;
                 p_onEvaluationRegister := Some addEvaluation |}
              (ByKey "admin") None None (newDevStore ∅))
    as (r & Hr & Hw & _).
  - left. reflexivity.
  - rewrite Hw. injection Hr as <-. reflexivity.
Defined.

End RootFacts.

Section GateFacts.
Import RuleEngine Provider Gate.

Implicit Types (props : PermissionsGateProps)
  (usePermission : TypedCheck → option JsValue → Mode → PermissionState)
  (children : list Child).

Lemma disableChildren_unchanged children :
  disableChildren children = AsGiven <$> children
  ↔ Forall (λ c, ∀ e, c ≠ ChildElement e) children.
Proof.
  unfold disableChildren. induction children as [|c cs IH].
  - split; [constructor|done].
  - rewrite !fmap_cons, Forall_cons. split.
    + intros [= Hc Hcs]. split; [|by apply IH].
      intros e ->. discriminate.
    + intros [Hc Hcs]. f_equal; [|by apply IH].
      destruct c as [e|]; [by destruct (Hc e)|done].
Qed.

Lemma no_clone_among_given children e :
  DisabledClone e ∉ AsGiven <$> children.
Proof. rewrite list_elem_of_fmap. by intros (c & [=] & _). Qed.

(** X16. The gate renders its children as they were given in exactly
    three cases: the check it settled on is allowed and no longer
    loading; the check is still loading and the mode is "disable"; or the
    check is denied, the mode is "disable" and no child is an element
    (only elements are cloned with the [disabled] props). Without
    [allow], [any] and [all] it renders the fallback or nothing, whatever
    the hook would return. Outside the mode "disable" it never renders a
    disabled clone. *)
Theorem gate_renders_children usePermission props :
  (PermissionsGate usePermission props = renderChildren (g_children props)
   ↔ ∃ check evalMode,
       selectCheck props = Some (check, evalMode)
       ∧ ((s_loading (usePermission check (g_resource props) evalMode) = false
           ∧ s_allowed (usePermission check (g_resource props) evalMode) = true)
          ∨ (s_loading (usePermission check (g_resource props) evalMode) = true
             ∧ g_mode props = Some Disable)
          ∨ (s_loading (usePermission check (g_resource props) evalMode) = false
             ∧ s_allowed (usePermission check (g_resource props) evalMode)
               = false
             ∧ g_mode props = Some Disable
             ∧ Forall (λ c, ∀ e, c ≠ ChildElement e) (g_children props))))
  ∧ (selectCheck props = None →
     ∀ usePermission',
       PermissionsGate usePermission' props
       = if g_fallback props then RenderFallback else RenderNull)
  ∧ (g_mode props ≠ Some Disable →
     ∀ nodes e,
       PermissionsGate usePermission props = RenderNodes nodes →
       DisabledClone e ∉ nodes).
Proof.
  unfold PermissionsGate, renderChildren. split; [|split].
  - destruct (selectCheck props) as [[check evalMode]|].
    + destruct (usePermission check (g_resource props) evalMode)
        as [a ld] eqn:Hst.
      cbn [s_loading s_allowed].
      split.
      * intros H. exists check, evalMode. split; [done|]. rewrite Hst.
        cbn [s_loading s_allowed].
        destruct ld; [|destruct a].
        -- right; left. split; [done|].
           destruct (g_mode props) as [[]|]; cbn in H; try discriminate; done.
        -- by left.
        -- right; right. cbn in H.
           destruct (g_mode props) as [[]|]; cbn in H;
             try (destruct (g_fallback props); discriminate).
           injection H as H. by apply disableChildren_unchanged in H.
      * intros (c & m & [= <- <-] & H). rewrite Hst in H.
        cbn [s_loading s_allowed] in H.
        destruct H as [[-> ->]|[[-> ->]|(-> & -> & -> & Hall)]]; cbn;
          try reflexivity.
        f_equal. by apply disableChildren_unchanged.
    + split.
      * intros H. destruct (g_fallback props); discriminate.
      * intros (c & m & [=] & _).
  - intros -> ?. reflexivity.
  - intros Hmode nodes e.
    destruct (selectCheck props) as [[check evalMode]|].
    + destruct (usePermission check (g_resource props) evalMode) as [a ld].
      cbn [s_loading s_allowed].
      destruct ld, a, (g_mode props) as [[]|]; cbn;
        try (by destruct Hmode);
        try discriminate;
        try (destruct (g_fallback props); discriminate);
        intros [= <-]; apply no_clone_among_given.
    + destruct (g_fallback props); discriminate.
Qed.

Lemma gate_renders_children_witness :
  PermissionsGate (λ _ _ _, {| s_allowed := true; s_loading := false |})
    {| g_allow := None; g_any := None; g_all := None; g_resource := None;
       g_fallback := true; g_mode := None;
       g_children := [ChildElement "button"] |}
  = RenderFallback.
Proof.
  destruct (gate_renders_children
              (λ _ _ _, {| s_allowed := true; s_loading := false |})
              {| g_allow := None; g_any := None; g_all := None;
                 g_resource := None; g_fallback := true; g_mode := None;
                 g_children := [ChildElement "button"] |})
    as (_ & Hnone & _).
  apply Hnone. reflexivity.
Defined.

(** X17. [allow] takes precedence over [any], and [any] over [all]: the
    gate renders the same with the lower ones removed, and the mode "all"
    is used only when [all] is given alone. *)
Theorem gate_check_precedence usePermission props :
  (is_Some (g_allow props) →
   PermissionsGate usePermission props
   = PermissionsGate usePermission
       {| g_allow := g_allow props; g_any := None; g_all := None;
          g_resource := g_resource props; g_fallback := g_fallback props;
          g_mode := g_mode props; g_children := g_children props |})
  ∧ (is_Some (g_any props) →
     PermissionsGate usePermission props
     = PermissionsGate usePermission
         {| g_allow := g_allow props; g_any := g_any props; g_all := None;
            g_resource := g_resource props; g_fallback := g_fallback props;
            g_mode := g_mode props; g_children := g_children props |})
  ∧ (∀ check, selectCheck props = Some (check, ModeAll) →
              g_allow props = None ∧ g_any props = None
              ∧ ∃ keys, g_all props = Some keys ∧ check = ByKeys keys).
Proof.
  split; [|split].
  - intros [c Hc]. unfold PermissionsGate, selectCheck. cbn. by rewrite Hc.
  - intros [ks Hks]. unfold PermissionsGate, selectCheck. cbn. rewrite Hks.
    by destruct (g_allow props).
  - intros check. unfold selectCheck.
    destruct (g_allow props); [discriminate|].
    destruct (g_any props); [discriminate|].
    destruct (g_all props) as [keys|]; [|discriminate].
    intros [= <-]. eauto.
Qed.

Lemma gate_check_precedence_witness :
  PermissionsGate (λ _ _ mode, {| s_allowed := match mode with
                                               | ModeAny => true
                                               | ModeAll => false
                                               end;
                                  s_loading := false |})
    {| g_allow := None; g_any := Some ["a"]; g_all := Some ["a"; "b"];
       g_resource := None; g_fallback := false; g_mode := None;
       g_children := [ChildOther "ok"] |}
  = RenderNodes [AsGiven (ChildOther "ok")].
Proof.
  destruct (gate_check_precedence
              (λ _ _ mode, {| s_allowed := match mode with
                                           | ModeAny => true
                                           | ModeAll => false
                                           end;
                              s_loading := false |})
              {| g_allow := None; g_any := Some ["a"]; g_all := Some ["a"; "b"];
                 g_resource := None; g_fallback := false; g_mode := None;
                 g_children := [ChildOther "ok"] |})
    as (_ & Hany & _).
  rewrite Hany; [reflexivity|]. by eexists.
Defined.

End GateFacts.
